(** * disk_analyzer/da.py: traversal, aggregation, filtering and formatting

    A shallow embedding of the disk-usage analyser.  Python dictionaries are
    finite maps ([gmap]), paths are lists of components below the scan root,
    sizes are unbounded integers ([Z]), and exceptions are an explicit
    result type. *)

From Stdlib Require Import ZArith Ascii String List Bool Lia.
From stdpp Require Import base decidable option list sorting gmap strings pretty fin_maps.

Open Scope string_scope.
Open Scope list_scope.
Open Scope Z_scope.

(** ** Paths

    [os.path.join(dirpath, name)] appends a component, [os.path.dirname]
    drops the last one.  The scan root is the empty list; it stands for an
    absolute directory name other than "/" without a trailing separator
    (what [os.path.abspath] returns in [validate_args]). *)

Definition path := list string.

Definition join (dirpath : path) (name : string) : path := dirpath ++ [name].

Definition dirname (p : path) : path := removelast p.

(** [os.path.relpath(p, root)]: "." for the root itself, the components
    joined by the separator otherwise. *)
Fixpoint sep_join (p : path) : string :=
  match p with
  | [] => ""
  | [x] => x
  | x :: rest => x +:+ "/" +:+ sep_join rest
  end.

Definition relpath (p : path) : string :=
  match p with
  | [] => "."
  | _ => sep_join p
  end.

(** [dirpath[len(root):].count(os.sep)] *)
Definition depth_of (dirpath : path) : Z := Z.of_nat (length dirpath).

(** ** Filesystem snapshot *)

Set Warnings "-register-all".

Record stat_result := mkStat { st_dev : Z; st_ino : Z; st_blocks : Z }.

(** A snapshot is the finite tree of everything path resolution reaches
    from the root.
    - [File st]: an entry that is neither a directory nor a symlink;
      [st = None] when [stat] raises [OSError] (unreadable or vanished).
    - [FileLink lst st]: a symlink that does not resolve to a directory;
      [lst] is its own [lstat], [st] the [stat] of its target, [None] when
      the link dangles or resolution fails (ELOOP).
    - [Dir lnk st entries]: a directory with its [stat] and its listing;
      [lnk = Some l] when the entry is a symlink resolving to that
      directory ([l] is the link's own [lstat]), and [entries] is then the
      listing seen through the link.  A symlink cycle unfolds until the
      kernel refuses to resolve the path, where the entry becomes a
      [FileLink] with [st = None].
    - [Vanishing]: a file removed while the scan runs: listed by its
      directory and still there when [os.path.exists] looks, gone when it
      is stat'ed. *)
Inductive node :=
| File (st : option stat_result)
| FileLink (lst : stat_result) (st : option stat_result)
| Vanishing
| Dir (lnk : option stat_result) (st : stat_result) (entries : list (string * node)).

Definition is_dir (n : node) : bool :=
  match n with Dir _ _ _ => true | _ => false end.

Definition is_link (n : node) : bool :=
  match n with
  | FileLink _ _ => true
  | Dir (Some _) _ _ => true
  | _ => false
  end.

Definition node_stat (n : node) : option stat_result :=
  match n with
  | File st => st
  | FileLink _ st => st
  | Vanishing => None
  | Dir _ st _ => Some st
  end.

Definition node_lstat (n : node) : option stat_result :=
  match n with
  | File st => st
  | FileLink lst _ => Some lst
  | Vanishing => None
  | Dir (Some l) _ _ => Some l
  | Dir None st _ => Some st
  end.

Fixpoint assoc (name : string) (entries : list (string * node)) : option node :=
  match entries with
  | [] => None
  | (n, x) :: rest => if String.eqb n name then Some x else assoc name rest
  end.

(** Path resolution from the scan root. *)
Fixpoint resolve (fs : node) (p : path) : option node :=
  match p with
  | [] => Some fs
  | name :: rest =>
      match fs with
      | Dir _ _ entries =>
          match assoc name entries with
          | Some child => resolve child rest
          | None => None
          end
      | _ => None
      end
  end.

Definition os_stat (fs : node) (p : path) : option stat_result :=
  resolve fs p ≫= node_stat.

Definition os_lstat (fs : node) (p : path) : option stat_result :=
  resolve fs p ≫= node_lstat.

(** [os.path.exists] follows symlinks and answers False on any [OSError]. *)
Definition os_path_exists (fs : node) (p : path) : bool :=
  match resolve fs p with
  | Some Vanishing => true
  | Some n => bool_decide (is_Some (node_stat n))
  | None => false
  end.

(** [os.path.islink] answers False on any [OSError]. *)
Definition os_path_islink (fs : node) (p : path) : bool :=
  match resolve fs p with
  | Some n => is_link n
  | None => false
  end.

(** [os.scandir(p)]: the entry names, or [None] for [OSError]. *)
Definition os_scandir (fs : node) (p : path) : option (list string) :=
  match resolve fs p with
  | Some (Dir _ _ entries) => Some (map fst entries)
  | _ => None
  end.

(** ** Patterns

    [fnmatch.fnmatch] on POSIX: the pattern is translated token by token
    ([*], [?], a bracket expression, or a literal character) and the
    translation must match the whole name. *)

Inductive token :=
| TStar
| TAny
| TLit (c : ascii)
| TClass (stuff : string).

(** The text up to the first closing bracket, and what follows it. *)
Fixpoint until_close (s : string) : option (string * string) :=
  match s with
  | EmptyString => None
  | String c s' =>
      if Ascii.eqb c "]" then Some (EmptyString, s')
      else match until_close s' with
           | Some (b, r) => Some (String c b, r)
           | None => None
           end
  end.

(** After an opening bracket: a leading [!] and then a leading []] belong
    to the expression; it ends at the next []]. *)
Definition bracket (s : string) : option (string * string) :=
  let '(neg, s1) :=
    match s with
    | String c t => if Ascii.eqb c "!" then ("!", t) else ("", s)
    | _ => ("", s)
    end in
  let '(first, s2) :=
    match s1 with
    | String c t => if Ascii.eqb c "]" then ("]", t) else ("", s1)
    | _ => ("", s1)
    end in
  match until_close s2 with
  | Some (b, r) => Some (neg +:+ first +:+ b, r)
  | None => None
  end.

Fixpoint translate (fuel : nat) (pat : string) : list token :=
  match fuel with
  | O => []
  | S fuel' =>
      match pat with
      | EmptyString => []
      | String c rest =>
          if Ascii.eqb c "*" then TStar :: translate fuel' rest
          else if Ascii.eqb c "?" then TAny :: translate fuel' rest
          else if Ascii.eqb c "[" then
            match bracket rest with
            | Some (stuff, rest') => TClass stuff :: translate fuel' rest'
            | None => TLit c :: translate fuel' rest
            end
          else TLit c :: translate fuel' rest
      end
  end.

Definition fnmatch_translate (pat : string) : list token :=
  translate (String.length pat) pat.

Definition ascii_le (a b : ascii) : bool := (N_of_ascii a <=? N_of_ascii b)%N.

(** Members of a bracket expression: [lo-hi] ranges read left to right,
    single characters otherwise. *)
Fixpoint class_items (stuff : string) (c : ascii) : bool :=
  match stuff with
  | EmptyString => false
  | String lo (String d (String hi rest as tl2) as tl1) =>
      if Ascii.eqb d "-" then (ascii_le lo c && ascii_le c hi) || class_items rest c
      else Ascii.eqb lo c || class_items tl1 c
  | String x rest => Ascii.eqb x c || class_items rest c
  end.

Definition class_match (stuff : string) (c : ascii) : bool :=
  match stuff with
  | String n rest => if Ascii.eqb n "!" then negb (class_items rest c) else class_items stuff c
  | EmptyString => false
  end.

Fixpoint glob_match (ts : list token) (s : string) : bool :=
  match ts with
  | [] => match s with EmptyString => true | _ => false end
  | TStar :: ts' =>
      (fix star (s : string) : bool :=
         glob_match ts' s
         || match s with EmptyString => false | String _ s' => star s' end) s
  | TAny :: ts' =>
      match s with String _ s' => glob_match ts' s' | EmptyString => false end
  | TLit c :: ts' =>
      match s with String x s' => Ascii.eqb x c && glob_match ts' s' | EmptyString => false end
  | TClass b :: ts' =>
      match s with String x s' => class_match b x && glob_match ts' s' | EmptyString => false end
  end.

Definition fnmatch (name pat : string) : bool :=
  glob_match (fnmatch_translate pat) name.

(** A compiled pattern: a glob string, or an [re.Pattern] object, which is
    used through its [search] method only. *)
Inductive pattern :=
| Glob (pat : string)
| Regex (search : string → bool).

Definition startswith_sep (pat : string) : bool :=
  match pat with
  | String c _ => Ascii.eqb c "/"
  | EmptyString => false
  end.

Definition match_pattern (rel : string) (pattern : pattern) (is_absolute : bool) : bool :=
  match pattern with
  | Regex search => search rel
  | Glob pat =>
      if startswith_sep pat then fnmatch rel pat
      else if is_absolute then fnmatch rel ("*/" +:+ pat)
      else fnmatch rel pat || fnmatch rel ("*/" +:+ pat)
  end.


(** ** [os.walk]

    Each visited directory yields [(dirpath, dirnames, filenames)]: the
    entries for which [is_dir()] holds, and all the others.  Symlinked
    directories are listed in [dirnames] and entered only with
    [followlinks].  Every directory of a snapshot can be listed: [os.walk]
    is called without [onerror], so a directory whose listing fails is
    named in the [dirnames] of its parent and never yielded itself, and a
    snapshot has no such directory.  What is said of a visited directory is
    therefore stated of the items a walk yields. *)

Definition walk_item := (path * list string * list string)%type.

Definition dirs_of (entries : list (string * node)) : list string :=
  map fst (filter (λ e, is_dir (snd e)) entries).

Definition nondirs_of (entries : list (string * node)) : list string :=
  map fst (filter (λ e, negb (is_dir (snd e))) entries).

Definition walk_into (followlinks : bool) (child : node) : bool :=
  is_dir child && (followlinks || negb (is_link child)).

(** Top-down: the consumer sees a directory before its subdirectories and
    may empty [dirnames] in place; [clear dirpath] tells whether it does. *)
Fixpoint walk_topdown (clear : path → bool) (followlinks : bool)
    (top : path) (n : node) : list walk_item :=
  match n with
  | Dir _ _ entries =>
      (top, dirs_of entries, nondirs_of entries) ::
      (if clear top then []
       else flat_map (λ e, if walk_into followlinks (snd e)
                           then walk_topdown clear followlinks (join top (fst e)) (snd e)
                           else []) entries)
  | _ => []
  end.

(** Bottom-up: subdirectories first, then the directory itself. *)
Fixpoint walk_bottomup (followlinks : bool) (top : path) (n : node) : list walk_item :=
  match n with
  | Dir _ _ entries =>
      flat_map (λ e, if walk_into followlinks (snd e)
                     then walk_bottomup followlinks (join top (fst e)) (snd e)
                     else []) entries
      ++ [(top, dirs_of entries, nondirs_of entries)]
  | _ => []
  end.

(** ** Exceptions *)

Inductive exn := OSError | TraversalError.

Inductive result (A : Type) :=
| Ok (a : A)
| Raise (e : exn).
Arguments Ok {A} a.
Arguments Raise {A} e.

(** ** [walk_directory] *)

Definition update (sizes : gmap path Z) (kvs : list (path * Z)) : gmap path Z :=
  fold_left (λ m kv, <[fst kv := snd kv]> m) kvs sizes.

Section WalkDirectory.
Variable fs : node.
Variable max_depth : option Z.
Variable follow_symlinks : bool.
Variable whitelist_patterns : list pattern.

(** [is_whitelisted] of both loops. *)
Definition is_whitelisted (dirpath : path) : bool :=
  existsb (λ pattern, match_pattern (relpath dirpath) pattern false) whitelist_patterns.

(** [not is_whitelisted and max_depth is not None and current_depth > max_depth] *)
Definition beyond_depth (dirpath : path) : bool :=
  negb (is_whitelisted dirpath)
  && match max_depth with
     | Some m => m <? depth_of dirpath
     | None => false
     end.

(** First pass: [dir_paths] and [file_paths]. *)
Definition collect (acc : list path * list path) (item : walk_item) : list path * list path :=
  let '(dirpath, _, filenames) := item in
  if beyond_depth dirpath then acc
  else (fst acc ++ [dirpath], snd acc ++ map (join dirpath) filenames).

Definition first_pass : list path * list path :=
  fold_left collect (walk_topdown beyond_depth follow_symlinks [] fs) ([], []).

(** Block size of one file entry, as both strategies compute it. *)
Definition probe (p : path) : option Z :=
  st ← (if os_path_islink fs p && negb follow_symlinks then os_lstat fs p else os_stat fs p);
  Some (st_blocks st * 512).

(** The task submitted per batch; [None] when a stat call raises. *)
Definition probe_batch (b : list path) : option (list (path * Z)) :=
  mapM (λ p, sz ← probe p; Some (p, sz)) (filter (λ p, os_path_exists fs p) b).

Fixpoint batches (fuel : nat) (batch_size : nat) (l : list path) : list (list path) :=
  match fuel with
  | O => []
  | S fuel' =>
      match l with
      | [] => []
      | _ => take batch_size l :: batches fuel' batch_size (drop batch_size l)
      end
  end.

Definition file_batches (file_paths : list path) : list (list path) :=
  let batch_size := if (1000 <? length file_paths)%nat then 500%nat else 100%nat in
  batches (length file_paths) batch_size file_paths.

(** Results are merged batch by batch; a failed batch is logged and dropped. *)
Definition merge_batch (sizes : gmap path Z) (b : list path) : gmap path Z :=
  match probe_batch b with
  | Some batch_results => update sizes batch_results
  | None => sizes
  end.

Definition sum_children (sizes : gmap path Z) (dirpath : path) (names : list string) : Z :=
  fold_left (λ dir_size name,
               match sizes !! join dirpath name with
               | Some v => dir_size + v
               | None => dir_size
               end) names 0.

Definition add_to_parent (m : gmap path Z) (dirpath : path) (dir_size : Z) : gmap path Z :=
  if decide (dirpath = []) then m
  else match m !! dirname dirpath with
       | Some v => <[dirname dirpath := v + dir_size]> m
       | None => m
       end.

(** One iteration of the deepest-first loop of the parallel strategy. *)
Definition aggregate_dir (st : gmap path Z * gmap path Z) (dirpath : path)
    : gmap path Z * gmap path Z :=
  let '(sizes, dir_sizes) := st in
  let dir_size :=
    match os_scandir fs dirpath with
    | Some names => sum_children sizes dirpath names
    | None => 0
    end in
  let dir_sizes := <[dirpath := dir_size]> dir_sizes in
  let sizes := <[dirpath := dir_size]> sizes in
  (sizes, add_to_parent dir_sizes dirpath dir_size).

Definition parallel_sizes (sizes : gmap path Z) : gmap path Z :=
  let '(dir_paths, file_paths) := first_pass in
  let sizes := fold_left merge_batch (file_batches file_paths) sizes in
  fst (fold_left aggregate_dir (rev dir_paths) (sizes, ∅)).

(** One file of the sequential loop. *)
Definition seq_file (dirpath : path) (record : bool) (st : Z * gmap path Z)
    (filename : string) : Z * gmap path Z :=
  let '(dir_size, sizes) := st in
  let file_path := join dirpath filename in
  match probe file_path with
  | Some file_size =>
      (dir_size + file_size, if record then <[file_path := file_size]> sizes else sizes)
  | None => (dir_size, sizes)
  end.

(** One directory of the sequential loop. *)
Definition seq_dir (sizes : gmap path Z) (item : walk_item) : gmap path Z :=
  let '(dirpath, _, filenames) := item in
  if beyond_depth dirpath then sizes
  else
    let record :=
      match max_depth with
      | None => true
      | Some m => (depth_of dirpath <=? m) || is_whitelisted dirpath
      end in
    let '(dir_size, sizes) := fold_left (seq_file dirpath record) filenames (0, sizes) in
    let sizes := <[dirpath := dir_size]> sizes in
    add_to_parent sizes dirpath dir_size.

Definition sequential_sizes (sizes : gmap path Z) : gmap path Z :=
  fold_left seq_dir (walk_bottomup follow_symlinks [] fs) sizes.

(** [root_dev] and [visited_inodes] are computed and never read; progress
    reporting and the pool size do not reach the result. *)
Definition walk_directory (one_filesystem use_parallel : bool) : result (gmap path Z) :=
  let visited_inodes : gset (Z * Z) := ∅ in
  match (if one_filesystem
         then match os_stat fs [] with
              | Some st => Ok (Some (st_dev st))
              | None => Raise OSError
              end
         else Ok None) with
  | Raise e => Raise e
  | Ok root_dev =>
      let sizes : gmap path Z := {[ [] := 0 ]} in
      Ok (if use_parallel then parallel_sizes sizes else sequential_sizes sizes)
  end.
End WalkDirectory.

(** ** [filter_paths] *)

Definition matches_any (patterns : list pattern) (p : path) : bool :=
  existsb (λ pattern, match_pattern (relpath p) pattern false) patterns.

(** Stage 1 of [filter_paths] as a predicate on paths. *)
Definition member (whitelist_patterns blacklist_patterns : list pattern) (p : path) : bool :=
  match whitelist_patterns with
  | _ :: _ => matches_any whitelist_patterns p
  | [] => negb (matches_any blacklist_patterns p)
  end.

(** First pass: the paths of the index that match a whitelist pattern. *)
Definition whitelist_matches (sizes : gmap path Z) (whitelist_patterns : list pattern)
    : gset path :=
  dom (filter (λ kv, matches_any whitelist_patterns (fst kv) = true) sizes).

(** Second pass, one entry: [false] where the loop body reaches [continue]. *)
Definition retained (wm : gset path) (min_size : Z)
    (whitelist_patterns blacklist_patterns : list pattern) (all_files : bool)
    (kv : path * Z) : bool :=
  let is_whitelisted := bool_decide (fst kv ∈ wm) in
  let size_ok := negb (negb all_files && negb is_whitelisted && (snd kv <? min_size)) in
  match whitelist_patterns with
  | _ :: _ => is_whitelisted && size_ok
  | [] =>
      match blacklist_patterns with
      | _ :: _ => negb (matches_any blacklist_patterns (fst kv)) && size_ok
      | [] => size_ok
      end
  end.

Definition above_cut (wm : gset path) (cut_size : Z) (kv : path * Z) : bool :=
  (cut_size <=? snd kv) || bool_decide (fst kv ∈ wm).

Definition filter_paths (sizes : gmap path Z) (min_size : Z) (cut_size : option Z)
    (whitelist_patterns blacklist_patterns : list pattern) (all_files : bool)
    : gmap path Z :=
  let wm := whitelist_matches sizes whitelist_patterns in
  let filtered :=
    filter (λ kv, retained wm min_size whitelist_patterns blacklist_patterns all_files kv = true)
           sizes in
  match cut_size with
  | Some c => filter (λ kv, above_cut wm c kv = true) filtered
  | None => filtered
  end.

(** ** [format_size]

    The floating-point steps are taken exactly: dividing an integer below
    2^53 by a power of 1024 is exact in binary64, [round(x, 2)] and the
    [.2f] conversion are correctly rounded (ties to even), and the integer
    part of the base-1024 logarithm stands for [floor(log(n, 1024))].  The
    mantissa is kept in hundredths.  [None] stands for an exception
    ([ValueError] from [math.log], [IndexError] from [size_names[i]]).

    A byte count from 2^53 on is rounded to 53 significant bits when
    [size_bytes / p] and [math.log] convert it to binary64; that rounding is
    not part of this definition.  The properties below are stated where it
    does not occur or does not matter: byte counts below 2^53, byte counts
    that are themselves binary64 numbers, and byte counts from 1024^6 on,
    where the index is past the table in either arithmetic. *)

Definition size_names : list string := ["B"; "KB"; "MB"; "GB"; "TB"; "PB"].

Definition round_half_even (num den : Z) : Z :=
  let q := num / den in
  let r := num mod den in
  if 2 * r <? den then q
  else if den <? 2 * r then q + 1
  else if Z.even q then q else q + 1.

Definition fixed2 (h : Z) : string :=
  pretty (h / 100) +:+ "." +:+ (if h mod 100 <? 10 then "0" else "") +:+ pretty (h mod 100).

Definition format_size (size_bytes : Z) : option string :=
  if size_bytes =? 0 then Some "0 B"
  else if size_bytes <? 0 then None
  else
    let i := Z.log2 size_bytes / 10 in
    let p := 1024 ^ i in
    let s := round_half_even (100 * size_bytes) p in
    let '(i, s) :=
      if (102400 <=? s) && (i + 1 <? Z.of_nat (length size_names))
      then (i + 1, round_half_even s 1024)
      else (i, s) in
    name ← size_names !! Z.to_nat i;
    Some (fixed2 s +:+ " " +:+ name).

(** ** [get_inode] and [should_follow_link] *)

Definition get_inode (fs : node) (p : path) : Z * Z :=
  match os_lstat fs p with
  | Some stat_info => (st_dev stat_info, st_ino stat_info)
  | None => (0, 0)
  end.

(** The decision together with the updated [visited_inodes]; an [OSError]
    inside the [try] block answers False. *)
Definition should_follow_link (fs : node) (p : path) (follow_symlinks one_filesystem : bool)
    (visited_inodes : gset (Z * Z)) : result (bool * gset (Z * Z)) :=
  if negb follow_symlinks then Ok (false, visited_inodes)
  else
    match resolve fs p, os_lstat fs p with
    | Some n, Some stat_info =>
        if negb (is_link n) then Ok (false, visited_inodes)
        else
          let crosses :=
            if one_filesystem then
              match os_stat fs p, os_stat fs (dirname p) with
              | Some target_stat, Some parent_stat =>
                  Some (negb (st_dev target_stat =? st_dev parent_stat))
              | _, _ => None
              end
            else Some false in
          match crosses with
          | None => Ok (false, visited_inodes)
          | Some true => Ok (false, visited_inodes)
          | Some false =>
              let inode := (st_dev stat_info, st_ino stat_info) in
              if bool_decide (inode ∈ visited_inodes) then Raise TraversalError
              else Ok (true, {[inode]} ∪ visited_inodes)
          end
    | _, _ => Ok (false, visited_inodes)
    end.

(** ** [get_file_size] and [process_directory_batch]

    [get_file_size] works on the entry its path resolves to; the entries
    that [os.scandir] yields are the children of that entry.  [None] stands
    for the [OSError] that the function logs and raises again. *)

Definition stat_fn (follow_symlinks : bool) (n : node) : option stat_result :=
  if follow_symlinks then node_stat n else node_lstat n.

(** [entry.is_dir(follow_symlinks=follow_symlinks)] *)
Definition entry_is_dir (follow_symlinks : bool) (n : node) : bool :=
  match n with
  | Dir None _ _ => true
  | Dir (Some _) _ _ => follow_symlinks
  | _ => false
  end.

Definition block_size (st : option stat_result) : option Z :=
  s ← st; Some (st_blocks s * 512).

Fixpoint get_file_size_node (follow_symlinks : bool) (n : node) : option Z :=
  match n with
  | Dir None st entries =>
      Some (fold_left
              (λ total e,
                 match (if entry_is_dir follow_symlinks (snd e)
                        then get_file_size_node follow_symlinks (snd e)
                        else block_size (stat_fn follow_symlinks (snd e))) with
                 | Some v => total + v
                 | None => total
                 end)
              entries (st_blocks st * 512))
  | _ => block_size (stat_fn follow_symlinks n)
  end.

Definition get_file_size (fs : node) (p : path) (follow_symlinks : bool) : option Z :=
  resolve fs p ≫= get_file_size_node follow_symlinks.

Definition process_directory_batch (fs : node) (batch : list path) (follow_symlinks : bool)
    : gmap path Z :=
  fold_left (λ result p,
               match get_file_size fs p follow_symlinks with
               | Some v => <[p := v]> result
               | None => result
               end) batch ∅.

(** ** [sort_paths]

    [paths] is the list of the items of the dictionary in its iteration
    order.  [sorted] is stable, also with [reverse=True]; a stable sort is
    determined by its comparison, here an insertion sort.  The name key is
    the path as a string below the root. *)

Definition path_string (p : path) : string :=
  match p with
  | [] => ""
  | _ => "/" +:+ sep_join p
  end.

Definition key_le (sort_key : string) (a b : path * Z) : bool :=
  if String.eqb sort_key "name"
  then String.leb (path_string (fst a)) (path_string (fst b))
  else snd a <=? snd b.

Fixpoint insert_by (le : path * Z → path * Z → bool) (x : path * Z)
    (l : list (path * Z)) : list (path * Z) :=
  match l with
  | [] => [x]
  | y :: l' => if le x y then x :: l else y :: insert_by le x l'
  end.

Definition sorted_by (le : path * Z → path * Z → bool) (l : list (path * Z))
    : list (path * Z) :=
  fold_right (insert_by le) [] l.

Definition sort_paths (paths : list (path * Z)) (sort_key : string) (reverse : bool)
    : list (path * Z) :=
  sorted_by (if reverse then (λ a b, key_le sort_key b a) else key_le sort_key) paths.

(** ** [load_pattern_file]

    [str.strip()] removes the ASCII whitespace characters at both ends. *)

Definition is_space (c : ascii) : bool :=
  let n := N_of_ascii c in
  ((9 <=? n) && (n <=? 13) || (28 <=? n) && (n <=? 32))%N.

Fixpoint lstrip (s : string) : string :=
  match s with
  | EmptyString => EmptyString
  | String c s' => if is_space c then lstrip s' else s
  end.

Fixpoint rstrip (s : string) : string :=
  match s with
  | EmptyString => EmptyString
  | String c s' =>
      match rstrip s' with
      | EmptyString => if is_space c then EmptyString else String c EmptyString
      | r => String c r
      end
  end.

Definition strip (s : string) : string := rstrip (lstrip s).

Definition is_comment (s : string) : bool :=
  match s with
  | String c _ => Ascii.eqb c "#"
  | EmptyString => false
  end.

Definition nonempty (s : string) : bool :=
  match s with
  | EmptyString => false
  | _ => true
  end.

(** [lines] is the content of the file, [None] when it cannot be read; the
    result is [None] for the [DiskAnalyzerError] raised in that case. *)
Definition load_pattern_file (lines : option (list string)) : option (list string) :=
  match lines with
  | None => None
  | Some ls =>
      Some (List.filter (λ line, nonempty line && negb (is_comment line)) (map strip ls))
  end.

(** ** [parse_size]

    The numeric part is kept as an exact decimal: [float(number_part)] is
    [m / 10^k] and [int(number * unit)] is the integer part of
    [m * unit / 10^k]; this is what binary64 computes as long as the
    decimal and the product are exactly representable, as for a whole
    number below 2^53 times a unit.  The rounding of other decimals to
    binary64 and the [OverflowError] of [int] on an infinite product are
    not part of this definition; the properties below are stated for
    rejected inputs and for whole numbers below 2^53.  [None] stands for
    [SizeFormatError]. *)

Definition SIZE_UNITS : list (string * Z) :=
  [("K", 1024); ("M", 1024 ^ 2); ("G", 1024 ^ 3); ("T", 1024 ^ 4); ("P", 1024 ^ 5);
   ("KB", 1024); ("MB", 1024 ^ 2); ("GB", 1024 ^ 3); ("TB", 1024 ^ 4); ("PB", 1024 ^ 5);
   ("KiB", 1024); ("MiB", 1024 ^ 2); ("GiB", 1024 ^ 3); ("TiB", 1024 ^ 4);
   ("PiB", 1024 ^ 5)].

Fixpoint units_lookup (units : list (string * Z)) (unit : string) : option Z :=
  match units with
  | [] => None
  | (k, v) :: rest => if String.eqb k unit then Some v else units_lookup rest unit
  end.

Definition is_digit (c : ascii) : bool :=
  let n := N_of_ascii c in ((48 <=? n) && (n <=? 57))%N.

Definition is_lower (c : ascii) : bool :=
  let n := N_of_ascii c in ((97 <=? n) && (n <=? 122))%N.

Definition is_upper (c : ascii) : bool :=
  let n := N_of_ascii c in ((65 <=? n) && (n <=? 90))%N.

Definition is_alpha (c : ascii) : bool := is_lower c || is_upper c.

Definition upper_char (c : ascii) : ascii :=
  if is_lower c then ascii_of_N (N_of_ascii c - 32) else c.

Fixpoint upper (s : string) : string :=
  match s with
  | EmptyString => EmptyString
  | String c s' => String (upper_char c) (upper s')
  end.

Fixpoint string_forall (P : ascii → bool) (s : string) : bool :=
  match s with
  | EmptyString => true
  | String c s' => P c && string_forall P s'
  end.

(** [str.isdigit] *)
Definition isdigit (s : string) : bool := nonempty s && string_forall is_digit s.

(** [int] of a string of digits *)
Fixpoint int_of_digits (acc : Z) (s : string) : Z :=
  match s with
  | EmptyString => acc
  | String c s' => int_of_digits (10 * acc + (Z.of_N (N_of_ascii c) - 48)) s'
  end.

(** The longest prefix of characters satisfying [P], and the rest. *)
Fixpoint span (P : ascii → bool) (s : string) : string * string :=
  match s with
  | EmptyString => (EmptyString, EmptyString)
  | String c s' =>
      if P c then let '(a, b) := span P s' in (String c a, b)
      else (EmptyString, s)
  end.

(** [re.match(r'^([\d.]+)\s*([A-Za-z]+)?$', s)]: the two groups, the
    second one empty when it does not take part. *)
Definition match_size (s : string) : option (string * string) :=
  let '(number_part, r1) := span (λ c, is_digit c || Ascii.eqb c ".") s in
  if nonempty number_part then
    let '(_, r2) := span is_space r1 in
    let '(unit, r3) := span is_alpha r2 in
    if nonempty r3 then None else Some (number_part, unit)
  else None.

(** [float(number_part)] as mantissa and number of decimals; [None] for
    [ValueError]. *)
Definition float_of (number_part : string) : option (Z * nat) :=
  let '(int_digits, r) := span is_digit number_part in
  match r with
  | EmptyString =>
      if nonempty int_digits then Some (int_of_digits 0 int_digits, O) else None
  | String c frac =>
      if Ascii.eqb c "." then
        let '(frac_digits, r') := span is_digit frac in
        if nonempty r' then None
        else if nonempty int_digits || nonempty frac_digits
             then Some (int_of_digits 0 (int_digits +:+ frac_digits),
                        String.length frac_digits)
             else None
      else None
  end.

Definition endswith_B (s : string) : bool :=
  match String.rev s with
  | String c _ => Ascii.eqb c "B"
  | EmptyString => false
  end.

Definition drop_last (s : string) : string :=
  match String.rev s with
  | String _ r => String.rev r
  | EmptyString => EmptyString
  end.

Definition parse_size (size_str : string) : option Z :=
  if negb (nonempty size_str) then None
  else if isdigit size_str then Some (int_of_digits 0 size_str)
  else
    match match_size (strip size_str) with
    | None => None
    | Some (number_part, unit) =>
        let unit_part := upper (if nonempty unit then unit else "B") in
        match float_of number_part with
        | None => None
        | Some (m, k) =>
            if String.eqb unit_part "B" || negb (nonempty unit_part)
            then Some (m / 10 ^ Z.of_nat k)
            else
              match units_lookup SIZE_UNITS unit_part with
              | Some u => Some (m * u / 10 ^ Z.of_nat k)
              | None =>
                  if endswith_B unit_part then
                    match units_lookup SIZE_UNITS (drop_last unit_part) with
                    | Some u => Some (m * u / 10 ^ Z.of_nat k)
                    | None => None
                    end
                  else None
              end
        end
    end.

(** ** Well-formed snapshots and reachability *)

(** The names listed by one directory are pairwise distinct. *)
Fixpoint wf_node (n : node) : bool :=
  match n with
  | Dir _ _ entries =>
      bool_decide (NoDup (map fst entries)) && forallb (λ e, wf_node (snd e)) entries
  | _ => true
  end.

(** [p] leads from [n] through directories that [os.walk] enters. *)
Fixpoint reaches (followlinks : bool) (n : node) (p : path) : bool :=
  match p with
  | [] => is_dir n
  | name :: rest =>
      match n with
      | Dir _ _ entries =>
          match assoc name entries with
          | Some child => walk_into followlinks child && reaches followlinks child rest
          | None => false
          end
      | _ => false
      end
  end.

(** The directories the first pass keeps, read off the snapshot. *)
Fixpoint enum_dirs (prune : path → bool) (followlinks : bool) (top : path) (n : node)
    : list path :=
  match n with
  | Dir _ _ entries =>
      if prune top then []
      else top :: flat_map (λ e, if walk_into followlinks (snd e)
                                 then enum_dirs prune followlinks (join top (fst e)) (snd e)
                                 else []) entries
  | _ => []
  end.

(** What the deepest-first loop stores for one directory. *)
Definition dir_size_of (fs : node) (sizes : gmap path Z) (dirpath : path) : Z :=
  match os_scandir fs dirpath with
  | Some names => sum_children sizes dirpath names
  | None => 0
  end.

(** Every block count reported by [stat] or [lstat] is non-negative. *)
Definition nonneg_stat (st : option stat_result) : bool :=
  match st with
  | Some s => 0 <=? st_blocks s
  | None => true
  end.

Fixpoint nonneg_blocks (n : node) : bool :=
  match n with
  | File st => nonneg_stat st
  | FileLink lst st => nonneg_stat (Some lst) && nonneg_stat st
  | Vanishing => true
  | Dir lnk st entries =>
      nonneg_stat lnk && nonneg_stat (Some st)
      && forallb (λ e, nonneg_blocks (snd e)) entries
  end.

(** No entry disappears while the scan runs. *)
Fixpoint no_vanishing (n : node) : bool :=
  match n with
  | Vanishing => false
  | Dir _ _ entries => forallb (λ e, no_vanishing (snd e)) entries
  | _ => true
  end.

(** The block sizes of the listed files whose probe succeeds, added up. *)
Definition sum_probes (fs : node) (follow_symlinks : bool) (dirpath : path)
    (filenames : list string) : Z :=
  fold_left (λ dir_size filename,
               match probe fs follow_symlinks (join dirpath filename) with
               | Some file_size => dir_size + file_size
               | None => dir_size
               end) filenames 0.

(** ** Sample snapshots *)

Definition reg (ino blocks : Z) : node := File (Some (mkStat 1 ino blocks)).

(** [root/sub/f], [f] holding 8 blocks. *)
Definition nested_tree : node :=
  Dir None (mkStat 1 1 8)
    [("sub", Dir None (mkStat 1 2 8) [("f", reg 3 8)])].

(** [root/f] only. *)
Definition flat_tree : node :=
  Dir None (mkStat 1 1 8) [("f", reg 2 8)].

(** [root/mnt] is a mount point of device 2 holding [f]. *)
Definition mounted_tree : node :=
  Dir None (mkStat 1 1 8)
    [("mnt", Dir None (mkStat 2 2 8) [("f", File (Some (mkStat 2 3 8)))])].

(** [root/loop] is a symlink to [root] itself; [root/f] is a file.  The
    view unfolds [k] times before path resolution fails. *)
Fixpoint symlink_cycle (k : nat) : list (string * node) :=
  match k with
  | O => [("f", reg 2 8); ("loop", FileLink (mkStat 1 3 0) None)]
  | S k' => [("f", reg 2 8);
             ("loop", Dir (Some (mkStat 1 3 0)) (mkStat 1 1 8) (symlink_cycle k'))]
  end.

Definition cycle_tree (k : nat) : node := Dir None (mkStat 1 1 8) (symlink_cycle k).

(** Linux resolves at most 40 symlinks along one path. *)
Definition max_symlinks : nat := 40.

(** [root/a/b/c/d/e], every directory holding one file [x]. *)
Definition deep_tree : node :=
  Dir None (mkStat 1 1 8)
    [("x", reg 11 8);
     ("a", Dir None (mkStat 1 2 8)
        [("x", reg 12 8);
         ("b", Dir None (mkStat 1 3 8)
            [("x", reg 13 8);
             ("c", Dir None (mkStat 1 4 8)
                [("x", reg 14 8);
                 ("d", Dir None (mkStat 1 5 8)
                    [("x", reg 15 8);
                     ("e", Dir None (mkStat 1 6 8) [("x.log", reg 16 8)])])])])])].

(** [root/gone] is removed during the scan, [root/f] and [root/sub/g] stay. *)
Definition racy_tree : node :=
  Dir None (mkStat 1 1 8)
    [("gone", Vanishing);
     ("f", reg 2 8);
     ("sub", Dir None (mkStat 1 3 8) [("g", reg 4 16)])].

(** The same with [root/gone] unreadable from the start. *)
Definition unreadable_tree : node :=
  Dir None (mkStat 1 1 8)
    [("gone", File None);
     ("f", reg 2 8);
     ("sub", Dir None (mkStat 1 3 8) [("g", reg 4 16)])].

(** [root/ext] is a symlink to a directory of device 2. *)
Definition linked_mount_tree : node :=
  Dir None (mkStat 1 1 8)
    [("ext", Dir (Some (mkStat 1 5 0)) (mkStat 2 9 8) [("f", File (Some (mkStat 2 10 8)))])].

Definition sizes_of (r : result (gmap path Z)) : gmap path Z :=
  match r with
  | Ok sizes => sizes
  | Raise _ => ∅
  end.

(** * Properties *)

(** ** Pattern matching *)

Example fnmatch_star_crosses_separators : fnmatch "a/b/x.log" "*.log" = true.
Proof. reflexivity. Qed.

Example fnmatch_whole_name_only : fnmatch "a/b/cache" "cache" = false.
Proof. reflexivity. Qed.

Example fnmatch_bracket_range : fnmatch "x7" "x[0-9]" = true /\ fnmatch "xa" "x[!0-9]" = true.
Proof. split; reflexivity. Qed.

Example fnmatch_unclosed_bracket : fnmatch "x[" "x[" = true.
Proof. reflexivity. Qed.

Example match_pattern_any_depth : match_pattern "a/b/cache" (Glob "cache") false = true.
Proof. reflexivity. Qed.

Lemma translate_star_sep (pat : string) :
  fnmatch_translate ("*/" +:+ pat) = TStar :: TLit "/" :: fnmatch_translate pat.
Proof. reflexivity. Qed.

Lemma glob_match_star (ts : list token) (s : string) :
  glob_match (TStar :: ts) s = true ↔
  ∃ pre suf, s = pre +:+ suf ∧ glob_match ts suf = true.
Proof.
  induction s as [|c s IH].
  - cbn. rewrite orb_false_r. split.
    + intros H. exists "", "". auto.
    + intros (pre & suf & Heq & H).
      destruct pre; [|discriminate]. change (EmptyString = suf) in Heq. by subst suf.
  - change (glob_match (TStar :: ts) (String c s))
      with (glob_match ts (String c s) || glob_match (TStar :: ts) s).
    rewrite orb_true_iff, IH. split.
    + intros [H | (pre & suf & -> & H)].
      * exists "", (String c s). auto.
      * exists (String c pre), suf. auto.
    + intros (pre & suf & Heq & H). destruct pre as [|c' pre].
      * change (String c s = suf) in Heq. subst suf. by left.
      * change (String c s = String c' (pre +:+ suf)) in Heq.
        injection Heq as -> ->. right. eauto.
Qed.

Lemma glob_match_lit (c : ascii) (ts : list token) (s : string) :
  glob_match (TLit c :: ts) s = true ↔
  ∃ s', s = String c s' ∧ glob_match ts s' = true.
Proof.
  destruct s as [|x s]; cbn.
  - split; [discriminate | intros (? & ? & _); discriminate].
  - rewrite andb_true_iff, Ascii.eqb_eq. split.
    + intros [-> H]. eauto.
    + intros (s' & Heq & H). injection Heq as -> ->. auto.
Qed.

(** A glob prefixed with [*/] matches exactly the names having a separator
    after which the glob matches the remainder. *)
Lemma fnmatch_star_sep (rel pat : string) :
  fnmatch rel ("*/" +:+ pat) = true ↔
  ∃ pre suf, rel = pre +:+ "/" +:+ suf ∧ fnmatch suf pat = true.
Proof.
  unfold fnmatch. rewrite translate_star_sep, glob_match_star. split.
  - intros (pre & suf & -> & H). apply glob_match_lit in H as (s' & -> & H).
    exists pre, s'. auto.
  - intros (pre & suf & -> & H). exists pre, ("/" +:+ suf). split; [done|].
    apply glob_match_lit. eauto.
Qed.

(** C7: a regex pattern matches exactly when its [search] finds a match in
    the root-relative path; a glob starting with the separator is matched
    by [fnmatch] against the full root-relative path; any other glob matches
    exactly when it matches the whole relative path or the remainder of the
    path after one of its separators. *)
Theorem match_pattern_semantics (rel : string) (p : pattern) :
  match p with
  | Regex search => match_pattern rel p false = search rel
  | Glob pat =>
      if startswith_sep pat
      then match_pattern rel p false = fnmatch rel pat
      else match_pattern rel p false = true ↔
           (fnmatch rel pat = true ∨
            ∃ pre suf, rel = pre +:+ "/" +:+ suf ∧ fnmatch suf pat = true)
  end.
Proof.
  destruct p as [pat | search]; [|reflexivity].
  unfold match_pattern. destruct (startswith_sep pat); [reflexivity|].
  rewrite orb_true_iff, fnmatch_star_sep. reflexivity.
Qed.

(** ** Filtering *)

Lemma elem_of_whitelist_matches (sizes : gmap path Z) (wl : list pattern) (p : path) :
  p ∈ whitelist_matches sizes wl ↔ is_Some (sizes !! p) ∧ matches_any wl p = true.
Proof.
  unfold whitelist_matches. rewrite elem_of_dom. split.
  - intros [x [H1 H2]%map_lookup_filter_Some]. eauto.
  - intros [[x H1] H2]. exists x. by apply map_lookup_filter_Some.
Qed.

Lemma retained_spec (sizes : gmap path Z) (min_size : Z) (wl bl : list pattern)
    (all_files : bool) (p : path) (size : Z) :
  sizes !! p = Some size →
  retained (whitelist_matches sizes wl) min_size wl bl all_files (p, size) = true ↔
  member wl bl p = true ∧
  (min_size ≤ size ∨ matches_any wl p = true ∨ all_files = true).
Proof.
  intros Hp. unfold retained, member. cbn [fst snd].
  assert (Hwm : bool_decide (p ∈ whitelist_matches sizes wl) = matches_any wl p).
  { destruct (matches_any wl p) eqn:E.
    - apply bool_decide_eq_true. apply elem_of_whitelist_matches. eauto.
    - apply bool_decide_eq_false. rewrite elem_of_whitelist_matches.
      intros [_ ?]. congruence. }
  rewrite Hwm.
  assert (Hempty : matches_any [] p = false) by reflexivity.
  destruct wl as [|w wl'], bl as [|b bl'];
    rewrite ?Hempty; destruct all_files, (matches_any _ p) eqn:E1;
    try destruct (matches_any (b :: bl') p) eqn:E2;
    destruct (Z.ltb_spec size min_size); cbn; intuition (try congruence; try lia).
Qed.

(** Every entry of the result, characterised stage by stage. *)
Lemma filter_paths_lookup (sizes : gmap path Z) (min_size : Z) (cut_size : option Z)
    (wl bl : list pattern) (all_files : bool) (p : path) (size : Z) :
  filter_paths sizes min_size cut_size wl bl all_files !! p = Some size ↔
  sizes !! p = Some size ∧
  member wl bl p = true ∧
  (min_size ≤ size ∨ matches_any wl p = true ∨ all_files = true) ∧
  match cut_size with
  | Some c => c ≤ size ∨ matches_any wl p = true
  | None => True
  end.
Proof.
  unfold filter_paths. destruct cut_size as [c|].
  - rewrite !map_lookup_filter_Some. split.
    + intros [[Hp Hr] Hc]. apply retained_spec in Hr; [|done].
      split; [done|]. split; [tauto|]. split; [tauto|].
      unfold above_cut in Hc. cbn [fst snd] in Hc.
      apply orb_true_iff in Hc as [Hc | Hc]; [left; lia|right].
      apply bool_decide_eq_true, elem_of_whitelist_matches in Hc. tauto.
    + intros (Hp & Hm & Hs & Hc). split; [split; [done|]|].
      * apply retained_spec; auto.
      * unfold above_cut. cbn [fst snd]. apply orb_true_iff.
        destruct Hc as [Hc | Hc]; [left; lia|right].
        apply bool_decide_eq_true, elem_of_whitelist_matches. eauto.
  - rewrite map_lookup_filter_Some. split.
    + intros [Hp Hr]. apply retained_spec in Hr; [|done]. tauto.
    + intros (Hp & Hm & Hs & _). split; [done|]. apply retained_spec; auto.
Qed.

(** C8: without a cut, an entry is in the result exactly when it passes the
    membership stage and its size is at least [min_size], or it is
    whitelisted, or [all_files] is set; the boundary is inclusive, and a
    file of exactly 1048576 bytes is retained under [min_size = 1048576]. *)
Theorem filter_paths_size_floor :
  (∀ (sizes : gmap path Z) (min_size : Z) (wl bl : list pattern) (all_files : bool)
     (p : path) (size : Z),
     filter_paths sizes min_size None wl bl all_files !! p = Some size ↔
     sizes !! p = Some size ∧ member wl bl p = true ∧
     (min_size ≤ size ∨ matches_any wl p = true ∨ all_files = true))
  ∧ filter_paths {[ ["f"] := 1048576 ]} 1048576 None [] [] false !! ["f"] = Some 1048576
  ∧ filter_paths {[ ["f"] := 1048575 ]} 1048576 None [] [] false !! ["f"] = None.
Proof.
  split; [|split].
  - intros. rewrite filter_paths_lookup. tauto.
  - apply filter_paths_lookup. rewrite lookup_singleton_eq. cbn. intuition lia.
  - apply eq_None_not_Some. intros [x Hx].
    apply filter_paths_lookup in Hx as (Hp & _ & Hs & _).
    rewrite lookup_singleton_eq in Hp. injection Hp as <-.
    cbn in Hs. intuition (try lia; try discriminate).
Qed.

(** C10 (amended): the result of [filter_paths] is a sub-map of its input;
    with no patterns, [min_size = 0] and no cut it is the input itself
    whenever [all_files] is set or no size of the index is negative. *)
Theorem filter_paths_restriction (sizes : gmap path Z) (min_size : Z) (cut_size : option Z)
    (wl bl : list pattern) (all_files : bool) :
  filter_paths sizes min_size cut_size wl bl all_files ⊆ sizes
  ∧ (all_files = true ∨ map_Forall (λ _ size, 0 ≤ size) sizes →
     filter_paths sizes 0 None [] [] all_files = sizes).
Proof.
  split.
  - apply map_subseteq_spec. intros p size H. by apply filter_paths_lookup in H as [? _].
  - intros Hpos. apply map_eq. intros p. apply option_eq. intros size.
    rewrite filter_paths_lookup. split; [tauto|]. intros Hp.
    split; [done|]. split; [reflexivity|]. split; [|done].
    destruct Hpos as [Hall | Hpos]; [by right; right|].
    left. exact (Hpos p size Hp).
Qed.

Lemma filter_paths_restriction_witness :
  let sizes : gmap path Z := {[ [] := 8192; ["g"] := 8192 ]} in
  (false = true ∨ map_Forall (λ _ size, 0 ≤ size) sizes)
  ∧ filter_paths sizes 4096 (Some 10000) [] [Glob "g"] false ⊆ sizes
  ∧ filter_paths sizes 0 None [] [] false = sizes.
Proof.
  intros sizes.
  assert (Hpos : map_Forall (λ _ size, 0 ≤ size) sizes).
  { intros p size. unfold sizes. rewrite lookup_insert.
    case_decide; [intros [= <-]; lia|].
    rewrite lookup_singleton. case_decide; [intros [= <-]; lia|discriminate]. }
  split; [right; exact Hpos|]. split.
  - exact (proj1 (filter_paths_restriction sizes 4096 (Some 10000) [] [Glob "g"] false)).
  - exact (proj2 (filter_paths_restriction sizes 0 None [] [] false) (or_intror Hpos)).
Defined.

(** The floor test is [size < min_size]: an entry of negative size is
    dropped under [min_size = 0], so the result is not the input. *)
Lemma filter_paths_drops_negative :
  filter_paths {[ [] := -1 ]} 0 None [] [] false !! [] = None
  ∧ filter_paths {[ [] := -1 ]} 0 None [] [] false ≠ {[ [] := -1 ]}.
Proof.
  assert (H : filter_paths {[ [] := -1 ]} 0 None [] [] false !! [] = None).
  { apply eq_None_not_Some. intros [x Hx].
    apply filter_paths_lookup in Hx as (Hp & _ & Hs & _).
    rewrite lookup_singleton_eq in Hp. injection Hp as <-.
    cbn in Hs. intuition (try lia; try discriminate). }
  split; [exact H|]. intros Heq. rewrite Heq, lookup_singleton_eq in H. discriminate.
Qed.

(** ** Size formatting *)

Example format_size_tie_to_even : format_size 1152 = Some "1.12 KB".
Proof. reflexivity. Qed.

Example format_size_bytes : format_size 512 = Some "512.00 B".
Proof. reflexivity. Qed.

Example format_size_carry : format_size 1048575 = Some "1.00 MB".
Proof. reflexivity. Qed.

Example format_size_beyond_table : format_size (2 ^ 60) = None.
Proof. reflexivity. Qed.

Lemma log1024_unique (n k : Z) :
  0 ≤ k → 2 ^ (10 * k) ≤ n < 2 ^ (10 * k + 10) → Z.log2 n / 10 = k.
Proof.
  intros Hk [Hlo Hhi].
  assert (Hpos : 0 < n) by (pose proof (Z.pow_pos_nonneg 2 (10 * k)); lia).
  assert (H1 : 10 * k ≤ Z.log2 n).
  { rewrite <- (Z.log2_pow2 (10 * k)) by lia. by apply Z.log2_le_mono. }
  assert (H2 : Z.log2 n < 10 * k + 10) by (apply Z.log2_lt_pow2; lia).
  clear Hlo Hhi Hpos. symmetry. apply (Z.div_unique _ 10 k (Z.log2 n - 10 * k)); lia.
Qed.

Lemma round_half_even_bounds (num den : Z) :
  0 < den →
  2 * Z.abs (round_half_even num den * den - num) ≤ den.
Proof.
  intros Hden. unfold round_half_even.
  pose proof (Z.div_mod num den ltac:(lia)) as Hdm.
  pose proof (Z.mod_pos_bound num den Hden) as Hr.
  destruct (Z.ltb_spec (2 * (num mod den)) den);
    [|destruct (Z.ltb_spec den (2 * (num mod den))); [|destruct (Z.even (num / den))]];
    nia.
Qed.

Lemma round_half_even_mono_lo (num den m : Z) :
  0 < den → m * den ≤ num → m ≤ round_half_even num den.
Proof.
  intros Hden Hm. unfold round_half_even.
  assert (m ≤ num / den) by (apply Z.div_le_lower_bound; lia).
  repeat case_match; lia.
Qed.

Lemma format_size_in_unit (n k : Z) :
  0 ≤ k ≤ 5 →
  1024 ^ k ≤ n < 1024 ^ (k + 1) →
  200 * n < 204799 * 1024 ^ 5 →
  ∃ (i : nat) (h : Z) (name : string),
    format_size n = Some (fixed2 h +:+ " " +:+ name) ∧
    size_names !! i = Some name ∧
    100 ≤ h < 102400 ∧
    2 * Z.abs (h * 1024 ^ Z.of_nat i - 100 * n) ≤ 1024 ^ Z.of_nat i.
Proof.
  intros Hk Hn Htop.
  assert (Hlog : Z.log2 n / 10 = k).
  { apply log1024_unique; [lia|].
    replace (10 * k + 10) with (10 * (k + 1)) by lia.
    rewrite !Z.pow_mul_r by lia. exact Hn. }
  assert (Hpos : 0 < n) by (pose proof (Z.pow_pos_nonneg 1024 k); lia).
  unfold format_size. rewrite Hlog.
  destruct (Z.eqb_spec n 0); [lia|]. destruct (Z.ltb_spec n 0); [lia|].
  cbv zeta.
  pose proof (round_half_even_bounds (100 * n) (1024 ^ k)
                ltac:(apply Z.pow_pos_nonneg; lia)) as Hb.
  pose proof (round_half_even_mono_lo (100 * n) (1024 ^ k) 100
                ltac:(apply Z.pow_pos_nonneg; lia) ltac:(lia)) as Hlo.
  set (s := round_half_even (100 * n) (1024 ^ k)) in *. clearbody s.
  clear Hlog.
  assert (Hcases : k = 0 ∨ k = 1 ∨ k = 2 ∨ k = 3 ∨ k = 4 ∨ k = 5) by lia.
  destruct (Z.leb_spec 102400 s) as [Hs | Hs].
  - (* the rounded mantissa reached 1024.00 *)
    assert (k = 5 ∨ s = 102400) as [-> | ->].
    { destruct Hcases as [-> | [-> | [-> | [-> | [-> | ->]]]]];
        cbn in Hn, Hb |- *; lia. }
    + exfalso. cbn in Hn, Hb, Htop. lia.
    + destruct Hcases as [-> | [-> | [-> | [-> | [-> | ->]]]]];
        [exists 1%nat | exists 2%nat | exists 3%nat | exists 4%nat | exists 5%nat
        | exfalso; cbn in Hn, Hb, Htop; lia];
        exists 100; eexists; (split; [reflexivity|]); (split; [reflexivity|]);
        cbn in Hn, Hb |- *; lia.
  - rewrite andb_false_l.
    destruct Hcases as [-> | [-> | [-> | [-> | [-> | ->]]]]];
      [exists 0%nat | exists 1%nat | exists 2%nat | exists 3%nat | exists 4%nat | exists 5%nat];
      exists s; eexists; (split; [reflexivity|]); (split; [reflexivity|]);
      cbn in Hn, Hb |- *; lia.
Qed.

Lemma log1024_bounds (n : Z) :
  0 < n → 1024 ^ (Z.log2 n / 10) ≤ n < 1024 ^ (Z.log2 n / 10 + 1).
Proof.
  intros Hpos.
  pose proof (Z.log2_spec n Hpos) as [Hlo Hhi].
  pose proof (Z.log2_nonneg n) as HL.
  set (L := Z.log2 n) in *. clearbody L.
  assert (Hk : 0 ≤ L / 10) by (apply Z.div_pos; lia).
  assert (Hdm : 10 * (L / 10) ≤ L < 10 * (L / 10) + 10).
  { pose proof (Z.div_mod L 10 ltac:(lia)). pose proof (Z.mod_pos_bound L 10 ltac:(lia)). lia. }
  change 1024 with (2 ^ 10). rewrite <- !Z.pow_mul_r by lia. split.
  - etrans; [|exact Hlo]. apply Z.pow_le_mono_r; lia.
  - eapply Z.lt_le_trans; [exact Hhi|]. apply Z.pow_le_mono_r; lia.
Qed.

(** C9 (amended): [format_size 1536] is "1.50 KB" and [format_size 0] is
    "0 B"; for every byte count from 1 up to (excluding) 2^53, the range in
    which a byte count is a binary64 number, the result is a mantissa with
    two decimals followed by a unit of the table, where the mantissa [h/100]
    lies in [1, 1024) and is the byte count divided by the unit, rounded to
    the nearest hundredth. *)
Theorem format_size_mantissa :
  format_size 1536 = Some "1.50 KB"
  ∧ format_size 0 = Some "0 B"
  ∧ ∀ n : Z,
      0 < n < 2 ^ 53 →
      ∃ (i : nat) (h : Z) (name : string),
        format_size n = Some (fixed2 h +:+ " " +:+ name) ∧
        size_names !! i = Some name ∧
        100 ≤ h < 102400 ∧
        2 * Z.abs (h * 1024 ^ Z.of_nat i - 100 * n) ≤ 1024 ^ Z.of_nat i.
Proof.
  split; [reflexivity|]. split; [reflexivity|].
  intros n [Hpos Hexact].
  assert (Htop : 200 * n < 204799 * 1024 ^ 5).
  { change (2 ^ 53) with 9007199254740992 in Hexact.
    change (1024 ^ 5) with 1125899906842624. lia. }
  pose proof (log1024_bounds n Hpos) as Hb.
  assert (Hk : 0 ≤ Z.log2 n / 10) by (apply Z.div_pos; [apply Z.log2_nonneg|lia]).
  apply (format_size_in_unit n (Z.log2 n / 10)); [|exact Hb|exact Htop].
  split; [exact Hk|].
  destruct (Z.le_gt_cases (Z.log2 n / 10) 5) as [|Hbig]; [done|exfalso].
  assert (1024 ^ 6 ≤ 1024 ^ (Z.log2 n / 10)) by (apply Z.pow_le_mono_r; lia).
  cbn in Htop. change (1024 ^ 6) with 1152921504606846976 in *. lia.
Qed.

Lemma format_size_mantissa_witness :
  0 < 1048575 < 2 ^ 53 ∧
  ∃ (i : nat) (h : Z) (name : string),
    format_size 1048575 = Some (fixed2 h +:+ " " +:+ name) ∧
    size_names !! i = Some name ∧
    100 ≤ h < 102400 ∧
    2 * Z.abs (h * 1024 ^ Z.of_nat i - 100 * 1048575) ≤ 1024 ^ Z.of_nat i.
Proof.
  assert (H : 0 < 1048575 < 2 ^ 53) by (split; reflexivity).
  split; [exact H|].
  exact (proj2 (proj2 format_size_mantissa) 1048575 H).
Defined.

(** Just below 1024 PB the unit table is exhausted and the mantissa is
    printed as 1024.00. *)
Lemma format_size_top_of_table :
  format_size (2 ^ 60 - 2 ^ 40) = Some (fixed2 102400 +:+ " PB")
  ∧ fixed2 102400 = "1024.00"
  ∧ ¬ (102400 < 102400).
Proof. split; [reflexivity|]. split; [reflexivity|lia]. Qed.

(** ** Traversal: what the code does on small snapshots *)

Example nested_sequential :
  map_to_list (sizes_of (walk_directory nested_tree None false [] false false))
  = [(["sub"; "f"], 4096); (["sub"], 4096); ([], 0)].
Proof. vm_compute. reflexivity. Qed.

Example nested_parallel :
  map_to_list (sizes_of (walk_directory nested_tree None false [] false true))
  = [(["sub"; "f"], 4096); (["sub"], 4096); ([], 4096)].
Proof. vm_compute. reflexivity. Qed.

(** C2 (code defect): on [root/sub/f] the parallel strategy stores 4096
    for the root, the sequential one stores 0, so the two indexes differ. *)
Theorem parallel_differs_from_sequential :
  sizes_of (walk_directory nested_tree None false [] false true) !! [] = Some 4096
  ∧ sizes_of (walk_directory nested_tree None false [] false false) !! [] = Some 0
  ∧ walk_directory nested_tree None false [] false true
    ≠ walk_directory nested_tree None false [] false false.
Proof.
  assert (H1 : sizes_of (walk_directory nested_tree None false [] false true) !! []
               = Some 4096) by (vm_compute; reflexivity).
  assert (H2 : sizes_of (walk_directory nested_tree None false [] false false) !! []
               = Some 0) by (vm_compute; reflexivity).
  split; [exact H1|]. split; [exact H2|].
  intros Heq. rewrite Heq in H1. rewrite H1 in H2. discriminate.
Qed.

(** The sequential loop overwrites what the subdirectories added to their
    parent: below the root the parent is not yet in the index when a child
    finishes, and the root's running total is replaced when the root itself
    is stored. *)
Example sequential_counts_direct_files_only :
  sizes_of (walk_directory deep_tree None false [] false false) !! ["a"] = Some 4096
  ∧ sizes_of (walk_directory deep_tree None false [] false true) !! ["a"] = Some 20480.
Proof. split; vm_compute; reflexivity. Qed.

Lemma walk_directory_one_filesystem (fs : node) (max_depth : option Z)
    (follow_symlinks : bool) (wl : list pattern) (use_parallel : bool) :
  is_dir fs = true →
  walk_directory fs max_depth follow_symlinks wl true use_parallel
  = walk_directory fs max_depth follow_symlinks wl false use_parallel.
Proof. intros Hdir. destruct fs; try discriminate. reflexivity. Qed.

(** C4 (code defect): with [one_filesystem] set, the file below a mount
    point of another device is still in the index, under both strategies;
    the flag does not change the result at all. *)
Theorem one_filesystem_crosses_devices :
  (∀ use_parallel : bool,
     sizes_of (walk_directory mounted_tree None false [] true use_parallel) !! ["mnt"; "f"]
     = Some 4096)
  ∧ (os_stat mounted_tree ["mnt"] ≫= (λ st, Some (st_dev st))) = Some 2
  ∧ (os_stat mounted_tree [] ≫= (λ st, Some (st_dev st))) = Some 1.
Proof.
  split; [|split; reflexivity].
  intros [|]; vm_compute; reflexivity.
Qed.

Lemma walk_directory_no_traversal_error (fs : node) (max_depth : option Z)
    (follow_symlinks : bool) (wl : list pattern) (one_filesystem use_parallel : bool) :
  walk_directory fs max_depth follow_symlinks wl one_filesystem use_parallel
  ≠ Raise TraversalError.
Proof.
  unfold walk_directory. destruct one_filesystem; [|discriminate].
  destruct (os_stat fs []); discriminate.
Qed.

(** C3 (code defect): following the links of a symlink cycle,
    [walk_directory] returns an index that lists the directory again below
    its own link instead of raising [TraversalError];
    [should_follow_link], which nothing calls, records and checks the
    link's own (device, inode), so a link to a directory already visited
    is followed. *)
Theorem symlink_cycle_not_detected :
  (∀ use_parallel : bool,
     ∃ sizes,
       walk_directory (cycle_tree max_symlinks) None true [] false use_parallel = Ok sizes
       ∧ sizes !! ["loop"; "loop"; "f"] = Some 4096)
  ∧ get_inode (cycle_tree max_symlinks) ["loop"] = (1, 3)
  ∧ (os_stat (cycle_tree max_symlinks) ["loop"] ≫= (λ st, Some (st_dev st, st_ino st)))
    = Some (1, 1)
  ∧ should_follow_link (cycle_tree max_symlinks) ["loop"] true false {[ (1, 1) ]}
    = Ok (true, {[ (1, 3) ]} ∪ {[ (1, 1) ]}).
Proof.
  split; [|split; [reflexivity|split; [reflexivity|]]].
  - intros [|]; eexists; (split; [reflexivity|]); vm_compute; reflexivity.
  - vm_compute. reflexivity.
Qed.

(** ** The first pass, read off the snapshot *)

Lemma node_induction (P : node → Prop) :
  (∀ st, P (File st)) →
  (∀ lst st, P (FileLink lst st)) →
  P Vanishing →
  (∀ lnk st entries, Forall (λ e, P (snd e)) entries → P (Dir lnk st entries)) →
  ∀ n, P n.
Proof.
  intros HF HL HV HD.
  fix IH 1. intros [st | lst st | | lnk st entries]; [apply HF | apply HL | apply HV |].
  apply HD. induction entries as [|[name child] entries IHe]; constructor.
  - apply IH.
  - exact IHe.
Qed.

Lemma fold_collect_dirs (max_depth : option Z) (wl : list pattern)
    (items : list walk_item) (acc : list path * list path) :
  fst (fold_left (collect max_depth wl) items acc)
  = fst acc ++ flat_map (λ item : walk_item,
                           if beyond_depth max_depth wl (fst (fst item)) then []
                           else [fst (fst item)]) items.
Proof.
  revert acc. induction items as [|[[dirpath dirnames] filenames] items IH]; intros acc.
  - cbn. by rewrite app_nil_r.
  - cbn [fold_left flat_map]. rewrite IH. unfold collect. cbn [fst snd].
    destruct (beyond_depth max_depth wl dirpath); [done|].
    cbn [fst]. by rewrite <- app_assoc.
Qed.

Lemma flat_map_flat_map {A B C} (f : A → list B) (g : B → list C) (l : list A) :
  flat_map g (flat_map f l) = flat_map (λ x, flat_map g (f x)) l.
Proof.
  induction l as [|x l IH]; [done|]. cbn. by rewrite flat_map_app, IH.
Qed.

Lemma flat_map_Forall_ext {A B} (f g : A → list B) (l : list A) :
  Forall (λ x, f x = g x) l → flat_map f l = flat_map g l.
Proof. induction 1 as [|x l Hx _ IH]; [done|]. cbn. by rewrite Hx, IH. Qed.

Lemma kept_dirs_walk (max_depth : option Z) (wl : list pattern) (followlinks : bool)
    (n : node) (top : path) :
  flat_map (λ item : walk_item,
              if beyond_depth max_depth wl (fst (fst item)) then [] else [fst (fst item)])
           (walk_topdown (beyond_depth max_depth wl) followlinks top n)
  = enum_dirs (beyond_depth max_depth wl) followlinks top n.
Proof.
  revert top. induction n as [| | |lnk st entries IH] using node_induction;
    intros top; try reflexivity.
  cbn [walk_topdown enum_dirs flat_map fst].
  destruct (beyond_depth max_depth wl top) eqn:Hb; [reflexivity|].
  cbn [app]. f_equal. rewrite flat_map_flat_map.
  apply flat_map_Forall_ext. eapply Forall_impl; [exact IH|].
  intros [name child] Hc. cbn [fst snd] in *.
  destruct (walk_into followlinks child); [apply Hc|reflexivity].
Qed.

Lemma first_pass_dirs (fs : node) (max_depth : option Z) (followlinks : bool)
    (wl : list pattern) :
  fst (first_pass fs max_depth followlinks wl)
  = enum_dirs (beyond_depth max_depth wl) followlinks [] fs.
Proof. unfold first_pass. rewrite fold_collect_dirs. apply kept_dirs_walk. Qed.

Lemma elem_of_flat_map {A B} (f : A → list B) (l : list A) (y : B) :
  y ∈ flat_map f l ↔ ∃ x, x ∈ l ∧ y ∈ f x.
Proof.
  rewrite list_elem_of_In, in_flat_map. split.
  - intros (x & H1 & H2). exists x. by rewrite !list_elem_of_In.
  - intros (x & H1 & H2). exists x. by rewrite <- !list_elem_of_In.
Qed.

Lemma enum_dirs_prefix (prune : path → bool) (followlinks : bool) (n : node) :
  ∀ (top p : path), p ∈ enum_dirs prune followlinks top n → top `prefix_of` p.
Proof.
  induction n as [| | |lnk st entries IH] using node_induction;
    intros top p Hp; cbn in Hp; try by apply elem_of_nil in Hp.
  destruct (prune top); [by apply elem_of_nil in Hp|].
  apply elem_of_cons in Hp as [-> | Hp]; [done|].
  apply elem_of_flat_map in Hp as ([name child] & He & Hp). cbn [fst snd] in Hp.
  destruct (walk_into followlinks child); [|by apply elem_of_nil in Hp].
  rewrite Forall_forall in IH. apply (IH _ He) in Hp.
  by apply prefix_app_l in Hp.
Qed.

(** Two paths below differently named entries of one directory are unrelated. *)
Lemma siblings_unrelated (top x y : path) (a b : string) :
  a ≠ b → join top a `prefix_of` x → join top b `prefix_of` y → ¬ y `prefix_of` x.
Proof.
  intros Hab Ha Hb Hyx.
  assert (Hb' : join top b `prefix_of` x) by (by etrans).
  destruct (prefix_weak_total _ _ _ Ha Hb') as [H | H];
    apply prefix_length_eq in H; unfold join in *;
    try (rewrite !length_app; cbn; lia);
    apply app_inj_1 in H as [_ H]; try done; congruence.
Qed.

Lemma enum_children_sorted (prune : path → bool) (followlinks : bool) (top : path)
    (entries : list (string * node)) :
  NoDup (map fst entries) →
  Forall (λ e, ∀ top', StronglySorted (λ x y : path, ¬ y `prefix_of` x)
                         (enum_dirs prune followlinks top' (snd e))) entries →
  StronglySorted (λ x y : path, ¬ y `prefix_of` x)
    (flat_map (λ e, if walk_into followlinks (snd e)
                    then enum_dirs prune followlinks (join top (fst e)) (snd e)
                    else []) entries).
Proof.
  intros Hnd IH. induction entries as [|[name child] entries IHe]; [constructor|].
  cbn [map fst] in Hnd. apply NoDup_cons in Hnd as [Hname Hnd].
  apply Forall_cons in IH as [IHc IH].
  cbn [flat_map fst snd]. apply StronglySorted_app. split; [|split].
  - intros x y Hx Hy.
    destruct (walk_into followlinks child); [|by apply elem_of_nil in Hx].
    apply enum_dirs_prefix in Hx.
    apply elem_of_flat_map in Hy as ([name' child'] & He & Hy). cbn [fst snd] in Hy.
    destruct (walk_into followlinks child'); [|by apply elem_of_nil in Hy].
    apply enum_dirs_prefix in Hy.
    eapply siblings_unrelated; [|exact Hx|exact Hy].
    intros ->. apply Hname. apply list_elem_of_In, in_map_iff.
    exists (name', child'). split; [done|]. by apply list_elem_of_In.
  - destruct (walk_into followlinks child); [apply IHc|constructor].
  - by apply IHe.
Qed.

(** In the top-down order no directory comes after one of its descendants,
    and none is listed twice. *)
Lemma enum_dirs_sorted (prune : path → bool) (followlinks : bool) (n : node) :
  wf_node n = true →
  ∀ top, StronglySorted (λ x y : path, ¬ y `prefix_of` x)
           (enum_dirs prune followlinks top n).
Proof.
  induction n as [| | |lnk st entries IH] using node_induction;
    intros Hwf top; try constructor.
  cbn in Hwf. apply andb_true_iff in Hwf as [Hnd Hwf].
  apply bool_decide_eq_true in Hnd. rewrite forallb_forall in Hwf.
  cbn [enum_dirs]. destruct (prune top); [constructor|].
  apply StronglySorted_cons. split.
  - apply Forall_forall. intros y Hy Hpre.
    apply elem_of_flat_map in Hy as ([name child] & He & Hy). cbn [fst snd] in Hy.
    destruct (walk_into followlinks child); [|by apply elem_of_nil in Hy].
    apply enum_dirs_prefix in Hy.
    apply (prefix_snoc_not top name). unfold join in Hy. by etrans.
  - apply enum_children_sorted; [done|].
    rewrite Forall_forall in IH. apply Forall_forall. intros e He top'.
    apply IH; [done|]. apply Hwf. by apply list_elem_of_In.
Qed.

(** ** The deepest-first loop *)

Lemma sum_children_ext (s1 s2 : gmap path Z) (dirpath : path) (names : list string) :
  (∀ name, s1 !! join dirpath name = s2 !! join dirpath name) →
  sum_children s1 dirpath names = sum_children s2 dirpath names.
Proof.
  intros Heq. unfold sum_children. generalize 0.
  induction names as [|name names IH]; intros acc; [done|].
  cbn [fold_left]. rewrite Heq. apply IH.
Qed.

Lemma dir_size_of_ext (fs : node) (s1 s2 : gmap path Z) (dirpath : path) :
  (∀ name, s1 !! join dirpath name = s2 !! join dirpath name) →
  dir_size_of fs s1 dirpath = dir_size_of fs s2 dirpath.
Proof.
  intros Heq. unfold dir_size_of. destruct (os_scandir fs dirpath); [|done].
  by apply sum_children_ext.
Qed.

Lemma aggregate_dir_sizes (fs : node) (st : gmap path Z * gmap path Z) (dirpath : path) :
  fst (aggregate_dir fs st dirpath) = <[dirpath := dir_size_of fs (fst st) dirpath]> (fst st).
Proof. destruct st as [sizes dir_sizes]. reflexivity. Qed.

Lemma join_ne (dirpath : path) (name : string) : join dirpath name ≠ dirpath.
Proof.
  intros H. apply (f_equal length) in H. unfold join in H.
  rewrite length_app in H. cbn in H. lia.
Qed.

Lemma prefix_join (dirpath : path) (name : string) : dirpath `prefix_of` join dirpath name.
Proof. by exists [name]. Qed.

(** Once every directory has been processed after all of its descendants,
    each stored directory size is the sum over its listed children of what
    the index holds for them. *)
Lemma aggregate_sorted (fs : node) (dirs : list path) (st0 : gmap path Z * gmap path Z) :
  StronglySorted (λ x y : path, ¬ y `prefix_of` x) dirs →
  ∀ D, D ∈ dirs →
    fst (fold_left (aggregate_dir fs) (rev dirs) st0) !! D
    = Some (dir_size_of fs (fst (fold_left (aggregate_dir fs) (rev dirs) st0)) D).
Proof.
  induction 1 as [|D0 rest Hsorted IH Hall]; intros D HD.
  - by apply elem_of_nil in HD.
  - cbn [rev]. rewrite fold_left_app. cbn [fold_left].
    rewrite aggregate_dir_sizes.
    set (S := fst (fold_left (aggregate_dir fs) (rev rest) st0)) in *.
    destruct (decide (D = D0)) as [-> | Hne].
    + rewrite lookup_insert_eq. f_equal. apply dir_size_of_ext.
      intros name. by rewrite lookup_insert_ne by (symmetry; apply join_ne).
    + apply elem_of_cons in HD as [? | HD]; [done|].
      rewrite Forall_forall in Hall. specialize (Hall D HD).
      rewrite lookup_insert_ne by done. rewrite (IH D HD).
      f_equal. apply dir_size_of_ext. intros name.
      rewrite lookup_insert_ne; [done|].
      intros ->. apply Hall. apply prefix_join.
Qed.

Lemma assoc_NoDup (entries : list (string * node)) (name : string) (child : node) :
  NoDup (map fst entries) → (name, child) ∈ entries → assoc name entries = Some child.
Proof.
  induction entries as [|[n c] entries IH]; intros Hnd Hin; [by apply elem_of_nil in Hin|].
  cbn [map fst] in Hnd. apply NoDup_cons in Hnd as [Hn Hnd].
  cbn [assoc]. apply elem_of_cons in Hin as [[= <- <-] | Hin].
  - by rewrite String.eqb_refl.
  - destruct (String.eqb_spec n name) as [-> | _]; [|by apply IH].
    exfalso. apply Hn. apply list_elem_of_In, in_map_iff.
    exists (name, child). split; [done|]. by apply list_elem_of_In.
Qed.

Lemma enum_dirs_resolve (prune : path → bool) (followlinks : bool) (n : node) :
  wf_node n = true →
  ∀ (top p : path), p ∈ enum_dirs prune followlinks top n →
    ∃ suffix, p = top ++ suffix ∧ (resolve n suffix ≫= (λ d, Some (is_dir d))) = Some true.
Proof.
  induction n as [| | |lnk st entries IH] using node_induction;
    intros Hwf top p Hp; cbn in Hp; try by apply elem_of_nil in Hp.
  cbn in Hwf. apply andb_true_iff in Hwf as [Hnd Hwf].
  apply bool_decide_eq_true in Hnd. rewrite forallb_forall in Hwf.
  destruct (prune top); [by apply elem_of_nil in Hp|].
  apply elem_of_cons in Hp as [-> | Hp].
  - exists []. by rewrite app_nil_r.
  - apply elem_of_flat_map in Hp as ([name child] & He & Hp). cbn [fst snd] in Hp.
    destruct (walk_into followlinks child); [|by apply elem_of_nil in Hp].
    rewrite Forall_forall in IH.
    destruct (IH _ He (Hwf _ (proj1 (list_elem_of_In _ _) He)) _ _ Hp)
      as (suffix & -> & Hres).
    exists (name :: suffix). split; [unfold join; by rewrite <- app_assoc|].
    cbn [resolve]. by rewrite (assoc_NoDup _ _ _ Hnd He).
Qed.

Lemma walk_directory_parallel_Ok (fs : node) (max_depth : option Z) (followlinks : bool)
    (wl : list pattern) (one_filesystem : bool) (sizes : gmap path Z) :
  walk_directory fs max_depth followlinks wl one_filesystem true = Ok sizes →
  ∃ st0, sizes = fst (fold_left (aggregate_dir fs)
                        (rev (fst (first_pass fs max_depth followlinks wl))) st0).
Proof.
  unfold walk_directory, parallel_sizes.
  destruct (first_pass fs max_depth followlinks wl) as [dir_paths file_paths].
  destruct one_filesystem; [destruct (os_stat fs [])|];
    intros [= <-] || discriminate; eauto.
Qed.

(** C1 (amended): for every directory kept by the first pass, the parallel
    strategy stores the sum of what the index holds for the entries the
    directory lists; the directory's own blocks are not part of it. *)
Theorem parallel_directory_size (fs : node) (max_depth : option Z) (followlinks : bool)
    (wl : list pattern) (one_filesystem : bool) (sizes : gmap path Z) (D : path) :
  wf_node fs = true →
  walk_directory fs max_depth followlinks wl one_filesystem true = Ok sizes →
  D ∈ fst (first_pass fs max_depth followlinks wl) →
  ∃ names, os_scandir fs D = Some names
           ∧ sizes !! D = Some (sum_children sizes D names).
Proof.
  intros Hwf Hwalk HD.
  apply walk_directory_parallel_Ok in Hwalk as [st0 ->].
  pose proof (aggregate_sorted fs (fst (first_pass fs max_depth followlinks wl)) st0) as Hagg.
  rewrite first_pass_dirs in Hagg, HD |- *.
  specialize (Hagg (enum_dirs_sorted _ _ _ Hwf []) D HD).
  destruct (enum_dirs_resolve _ _ _ Hwf _ _ HD) as (suffix & Hsuf & Hres).
  cbn [app] in Hsuf. subst suffix.
  unfold dir_size_of, os_scandir in *.
  destruct (resolve fs D) as [[| | |lnk st entries]|]; try discriminate.
  eauto.
Qed.

Lemma parallel_directory_size_witness :
  wf_node nested_tree = true
  ∧ [] ∈ fst (first_pass nested_tree None false [])
  ∧ ∃ names, os_scandir nested_tree [] = Some names
             ∧ sizes_of (walk_directory nested_tree None false [] false true) !! []
               = Some (sum_children
                         (sizes_of (walk_directory nested_tree None false [] false true))
                         [] names).
Proof.
  assert (Hin : [] ∈ fst (first_pass nested_tree None false []))
    by (vm_compute; constructor).
  split; [reflexivity|]. split; [exact Hin|].
  exact (parallel_directory_size nested_tree None false [] false _ []
           eq_refl eq_refl Hin).
Defined.

(** The root of [root/f] has 8 blocks of its own and [f] has 8; the index
    holds 4096 for both, not 8192 for the root. *)
Lemma directory_size_without_own_blocks :
  ∃ sizes own,
    walk_directory flat_tree None false [] false true = Ok sizes
    ∧ os_stat flat_tree [] = Some own
    ∧ sizes !! ["f"] = Some 4096
    ∧ sizes !! [] = Some 4096
    ∧ sizes !! [] ≠ Some (st_blocks own * 512 + 4096).
Proof.
  eexists _, _. split; [reflexivity|]. split; [reflexivity|].
  assert (H : sizes_of (walk_directory flat_tree None false [] false true) !! []
              = Some 4096) by (vm_compute; reflexivity).
  split; [vm_compute; reflexivity|]. split; [exact H|].
  cbn [sizes_of walk_directory] in H. rewrite H. cbn. discriminate.
Qed.

(** ** Whitelisted directories *)

Lemma assoc_elem_of (entries : list (string * node)) (name : string) (child : node) :
  assoc name entries = Some child → (name, child) ∈ entries.
Proof.
  induction entries as [|[n c] entries IH]; [discriminate|]. cbn [assoc].
  destruct (String.eqb_spec n name) as [-> | _].
  - intros [= ->]. apply elem_of_cons. by left.
  - intros H. apply elem_of_cons. right. by apply IH.
Qed.

(** In a snapshot the walks yield every directory that a chain of entered
    directories leads to: the top-down walk when the consumer clears
    [dirnames] at none of the directories on the way, the bottom-up walk
    always. *)
Lemma reaches_enum_dirs (prune : path → bool) (followlinks : bool) (p : path) :
  ∀ (n : node) (top : path),
    reaches followlinks n p = true →
    (∀ q r, p = q ++ r → prune (top ++ q) = false) →
    top ++ p ∈ enum_dirs prune followlinks top n.
Proof.
  induction p as [|name rest IH]; intros n top Hreach Hprune.
  - destruct n; try discriminate. cbn [enum_dirs].
    assert (Hp : prune top = false)
      by (rewrite <- (app_nil_r top); apply (Hprune [] [] eq_refl)).
    rewrite app_nil_r, Hp. apply elem_of_cons. by left.
  - destruct n as [| | |lnk st entries]; try discriminate. cbn [reaches] in Hreach.
    destruct (assoc name entries) as [child|] eqn:Hassoc; [|discriminate].
    apply andb_true_iff in Hreach as [Hinto Hreach].
    assert (Hp : prune top = false)
      by (rewrite <- (app_nil_r top); apply (Hprune [] (name :: rest) eq_refl)).
    cbn [enum_dirs]. rewrite Hp.
    apply elem_of_cons. right. apply elem_of_flat_map.
    exists (name, child). split; [by apply assoc_elem_of|]. cbn [fst snd].
    rewrite Hinto. replace (top ++ name :: rest) with (join top name ++ rest)
      by (unfold join; by rewrite <- app_assoc).
    apply IH; [done|]. intros q r ->. unfold join. rewrite <- app_assoc.
    apply (Hprune (name :: q) r). reflexivity.
Qed.

Lemma reaches_walk_bottomup (followlinks : bool) (p : path) :
  ∀ (n : node) (top : path),
    reaches followlinks n p = true →
    ∃ dirnames filenames,
      (top ++ p, dirnames, filenames) ∈ walk_bottomup followlinks top n.
Proof.
  induction p as [|name rest IH]; intros n top Hreach.
  - destruct n as [| | |lnk st entries]; try discriminate. cbn [walk_bottomup].
    rewrite app_nil_r. eexists _, _. apply elem_of_app. right. apply elem_of_cons. by left.
  - destruct n as [| | |lnk st entries]; try discriminate. cbn [reaches] in Hreach.
    destruct (assoc name entries) as [child|] eqn:Hassoc; [|discriminate].
    apply andb_true_iff in Hreach as [Hinto Hreach].
    destruct (IH child (join top name) Hreach) as (dirnames & filenames & Hin).
    exists dirnames, filenames. cbn [walk_bottomup].
    apply elem_of_app. left. apply elem_of_flat_map.
    exists (name, child). split; [by apply assoc_elem_of|]. cbn [fst snd].
    rewrite Hinto. replace (top ++ name :: rest) with (join top name ++ rest)
      by (unfold join; by rewrite <- app_assoc).
    exact Hin.
Qed.

(** Keys are never removed by the deepest-first loop. *)
Lemma aggregate_keeps (fs : node) (dirs : list path) (st : gmap path Z * gmap path Z)
    (k : path) :
  is_Some (fst st !! k) ∨ k ∈ dirs →
  is_Some (fst (fold_left (aggregate_dir fs) dirs st) !! k).
Proof.
  revert st. induction dirs as [|D dirs IH]; intros st [Hk | Hk].
  - done.
  - by apply elem_of_nil in Hk.
  - cbn [fold_left]. apply IH. left. rewrite aggregate_dir_sizes.
    rewrite lookup_insert. case_decide; [eauto|done].
  - cbn [fold_left]. apply IH. apply elem_of_cons in Hk as [-> | Hk]; [left|by right].
    rewrite aggregate_dir_sizes. rewrite lookup_insert_eq. eauto.
Qed.

Lemma add_to_parent_keeps (m : gmap path Z) (dirpath : path) (dir_size : Z) (k : path) :
  is_Some (m !! k) → is_Some (add_to_parent m dirpath dir_size !! k).
Proof.
  intros Hk. unfold add_to_parent. case_decide; [done|].
  destruct (m !! dirname dirpath); [|done].
  rewrite lookup_insert. case_decide; eauto.
Qed.

Lemma seq_file_keeps (fs : node) (followlinks : bool) (dirpath : path) (record : bool)
    (filenames : list string) (st : Z * gmap path Z) (k : path) :
  is_Some (snd st !! k) →
  is_Some (snd (fold_left (seq_file fs followlinks dirpath record) filenames st) !! k).
Proof.
  revert st. induction filenames as [|f filenames IH]; intros [dir_size sizes] Hk; [done|].
  cbn [fold_left]. apply IH. unfold seq_file.
  destruct (probe fs followlinks (join dirpath f)); [|done].
  destruct record; [|done]. cbn [snd] in *.
  rewrite lookup_insert. case_decide; eauto.
Qed.

Lemma seq_dir_keeps (fs : node) (max_depth : option Z) (followlinks : bool)
    (wl : list pattern) (sizes : gmap path Z) (item : walk_item) (k : path) :
  is_Some (sizes !! k) →
  is_Some (seq_dir fs max_depth followlinks wl sizes item !! k).
Proof.
  intros Hk. destruct item as [[dirpath dirnames] filenames]. unfold seq_dir.
  destruct (beyond_depth max_depth wl dirpath); [done|].
  match goal with
  | |- context [fold_left (seq_file _ _ _ ?record) filenames ?st] =>
      pose proof (seq_file_keeps fs followlinks dirpath record filenames st k Hk) as Hf;
      destruct (fold_left (seq_file fs followlinks dirpath record) filenames st)
        as [dir_size sizes']
  end.
  cbn [snd] in Hf. apply add_to_parent_keeps. rewrite lookup_insert. case_decide; eauto.
Qed.

Lemma seq_dir_stores (fs : node) (max_depth : option Z) (followlinks : bool)
    (wl : list pattern) (sizes : gmap path Z) (dirpath : path)
    (dirnames filenames : list string) :
  beyond_depth max_depth wl dirpath = false →
  is_Some (seq_dir fs max_depth followlinks wl sizes (dirpath, dirnames, filenames)
           !! dirpath).
Proof.
  intros Hb. unfold seq_dir. rewrite Hb.
  match goal with
  | |- context [fold_left ?f filenames ?st] =>
      destruct (fold_left f filenames st) as [dir_size sizes']
  end.
  apply add_to_parent_keeps. rewrite lookup_insert_eq. eauto.
Qed.

Lemma sequential_keeps (fs : node) (max_depth : option Z) (followlinks : bool)
    (wl : list pattern) (items : list walk_item) (sizes : gmap path Z) (k : path) :
  is_Some (sizes !! k)
  ∨ (∃ dirnames filenames, (k, dirnames, filenames) ∈ items
                           ∧ beyond_depth max_depth wl k = false) →
  is_Some (fold_left (seq_dir fs max_depth followlinks wl) items sizes !! k).
Proof.
  revert sizes. induction items as [|item items IH]; intros sizes Hk.
  - destruct Hk as [Hk | (? & ? & Hk & _)]; [done|by apply elem_of_nil in Hk].
  - cbn [fold_left]. apply IH.
    destruct Hk as [Hk | (dirnames & filenames & Hk & Hb)].
    + left. by apply seq_dir_keeps.
    + apply elem_of_cons in Hk as [<- | Hk]; [left; by apply seq_dir_stores|].
      right. eauto.
Qed.

Lemma matches_any_nonempty (wl : list pattern) (p : path) :
  matches_any wl p = true → ∃ w wl', wl = w :: wl'.
Proof. destruct wl; [discriminate|eauto]. Qed.




(** ** Probe failures *)

Example unreadable_entry_skipped :
  ∀ use_parallel : bool,
    let sizes := sizes_of (walk_directory unreadable_tree None false [] false use_parallel) in
    sizes !! ["gone"] = None ∧ sizes !! ["f"] = Some 4096 ∧ sizes !! ["sub"; "g"] = Some 8192.
Proof. intros [|]; repeat split; vm_compute; reflexivity. Qed.

(** C6 (code defect): [root/gone] passes the existence check of the
    parallel worker and then fails to stat.  The error does not escape, but
    the worker's whole batch is dropped: [root/f] and [root/sub/g] are
    missing from the index and every directory is stored as 0.  The
    sequential strategy omits [root/gone] alone. *)
Theorem parallel_probe_failure_drops_batch :
  os_path_exists racy_tree ["gone"] = true
  ∧ probe racy_tree false ["gone"] = None
  ∧ probe racy_tree false ["f"] = Some 4096
  ∧ (∃ sizes, walk_directory racy_tree None false [] false true = Ok sizes
              ∧ sizes !! ["gone"] = None
              ∧ sizes !! ["f"] = None
              ∧ sizes !! ["sub"; "g"] = None
              ∧ sizes !! ["sub"] = Some 0
              ∧ sizes !! [] = Some 0)
  ∧ (∃ sizes, walk_directory racy_tree None false [] false false = Ok sizes
              ∧ sizes !! ["gone"] = None
              ∧ sizes !! ["f"] = Some 4096
              ∧ sizes !! ["sub"; "g"] = Some 8192).
Proof.
  split; [reflexivity|]. split; [reflexivity|]. split; [reflexivity|]. split.
  - eexists. split; [reflexivity|]. repeat split; vm_compute; reflexivity.
  - eexists. split; [reflexivity|]. repeat split; vm_compute; reflexivity.
Qed.

(** Whatever the entries do, scanning a directory returns an index: no
    access error leaves [walk_directory]. *)
Lemma walk_directory_returns (fs : node) (max_depth : option Z) (followlinks : bool)
    (wl : list pattern) (one_filesystem use_parallel : bool) :
  is_dir fs = true →
  ∃ sizes, walk_directory fs max_depth followlinks wl one_filesystem use_parallel = Ok sizes.
Proof.
  intros Hdir. destruct fs as [| | |lnk st entries]; try discriminate.
  unfold walk_directory. destruct one_filesystem; cbn; eauto.
Qed.

(** ** More on filtering *)

(** X1: filtering a filtered index again with the same criteria changes
    nothing. *)
Theorem filter_paths_idempotent (sizes : gmap path Z) (min_size : Z) (cut_size : option Z)
    (wl bl : list pattern) (all_files : bool) :
  filter_paths (filter_paths sizes min_size cut_size wl bl all_files)
               min_size cut_size wl bl all_files
  = filter_paths sizes min_size cut_size wl bl all_files.
Proof.
  apply map_eq. intros p. apply option_eq. intros size.
  rewrite (filter_paths_lookup (filter_paths _ _ _ _ _ _)). split; [tauto|].
  intros H. split; [done|]. apply filter_paths_lookup in H. tauto.
Qed.

(** X2: as soon as one whitelist pattern is given, the blacklist has no
    effect on the result. *)
Theorem filter_paths_whitelist_overrides (sizes : gmap path Z) (min_size : Z)
    (cut_size : option Z) (w : pattern) (wl bl : list pattern) (all_files : bool) :
  filter_paths sizes min_size cut_size (w :: wl) bl all_files
  = filter_paths sizes min_size cut_size (w :: wl) [] all_files.
Proof.
  apply map_eq. intros p. apply option_eq. intros size.
  rewrite !filter_paths_lookup. reflexivity.
Qed.

(** X3: an entry whose root-relative path matches a whitelist pattern is
    kept with its size whatever the thresholds, the blacklist and
    [all_files] are. *)
Theorem filter_paths_keeps_whitelisted (sizes : gmap path Z) (min_size : Z)
    (cut_size : option Z) (wl bl : list pattern) (all_files : bool)
    (p : path) (size : Z) :
  sizes !! p = Some size →
  matches_any wl p = true →
  filter_paths sizes min_size cut_size wl bl all_files !! p = Some size.
Proof.
  intros Hp Hwl. apply filter_paths_lookup. split; [done|].
  destruct (matches_any_nonempty _ _ Hwl) as (w & wl' & ->).
  split; [exact Hwl|]. split; [auto|]. destruct cut_size; auto.
Qed.

Lemma filter_paths_keeps_whitelisted_witness :
  let sizes : gmap path Z := {[ ["cache"] := 0 ]} in
  sizes !! ["cache"] = Some 0
  ∧ matches_any [Glob "cache"] ["cache"] = true
  ∧ filter_paths sizes 4096 (Some 8192) [Glob "cache"] [Glob "*"] false !! ["cache"] = Some 0.
Proof.
  intros sizes.
  assert (Hp : sizes !! ["cache"] = Some 0) by apply lookup_singleton_eq.
  split; [exact Hp|]. split; [reflexivity|].
  apply filter_paths_keeps_whitelisted; [exact Hp|reflexivity].
Defined.

(** X4: without a whitelist and without [all_files], a floor and a cut act
    as the single floor [max min_size cut_size]. *)
Theorem filter_paths_floor_and_cut (sizes : gmap path Z) (min_size c : Z)
    (bl : list pattern) :
  filter_paths sizes min_size (Some c) [] bl false
  = filter_paths sizes (Z.max min_size c) None [] bl false.
Proof.
  apply map_eq. intros p. apply option_eq. intros size.
  rewrite !filter_paths_lookup.
  assert (Hempty : matches_any [] p = false) by reflexivity. rewrite Hempty.
  intuition (try discriminate; try lia).
Qed.

(** X5: [all_files] lifts the floor but not the cut: with no whitelist an
    entry is then kept exactly when it is not blacklisted and its size
    reaches the cut. *)
Theorem filter_paths_all_files_respects_cut (sizes : gmap path Z) (min_size c : Z)
    (bl : list pattern) (p : path) (size : Z) :
  filter_paths sizes min_size (Some c) [] bl true !! p = Some size ↔
  sizes !! p = Some size ∧ matches_any bl p = false ∧ c ≤ size.
Proof.
  rewrite filter_paths_lookup.
  assert (Hempty : matches_any [] p = false) by reflexivity. rewrite Hempty.
  unfold member. rewrite negb_true_iff.
  intuition (try discriminate; try lia).
Qed.

(** X6: raising the floor only removes entries. *)
Theorem filter_paths_floor_monotone (sizes : gmap path Z) (m1 m2 : Z) (cut_size : option Z)
    (wl bl : list pattern) (all_files : bool) :
  m1 ≤ m2 →
  filter_paths sizes m2 cut_size wl bl all_files
  ⊆ filter_paths sizes m1 cut_size wl bl all_files.
Proof.
  intros Hm. apply map_subseteq_spec. intros p size.
  rewrite !filter_paths_lookup. intuition lia.
Qed.

Lemma filter_paths_floor_monotone_witness :
  0 ≤ 4096
  ∧ filter_paths {[ ["f"] := 100 ]} 4096 None [] [] false
    ⊆ filter_paths {[ ["f"] := 100 ]} 0 None [] [] false.
Proof.
  split; [lia|]. apply filter_paths_floor_monotone. lia.
Defined.

(** ** More on patterns *)

Lemma append_assoc (a b c : string) : (a +:+ b) +:+ c = a +:+ (b +:+ c).
Proof.
  induction a as [|x a IH]; [reflexivity|].
  change (String x ((a +:+ b) +:+ c) = String x (a +:+ (b +:+ c))). by rewrite IH.
Qed.

Lemma translate_anchored (pat : string) :
  startswith_sep pat = true →
  ∃ ts, fnmatch_translate pat = TLit "/" :: ts.
Proof.
  destruct pat as [|c pat]; [discriminate|]. cbn [startswith_sep].
  intros ->%Ascii.eqb_eq. unfold fnmatch_translate. cbn. eauto.
Qed.

Lemma relpath_not_anchored (p : path) :
  Forall (λ name, name ≠ "" ∧ startswith_sep name = false) p →
  startswith_sep (relpath p) = false.
Proof.
  destruct 1 as [|name rest [Hne Hsep] _]; [reflexivity|].
  destruct name as [|c name]; [done|].
  destruct rest; exact Hsep.
Qed.

(** X7: a glob that starts with the separator never matches the
    root-relative path of an entry, so as a whitelist or blacklist pattern
    it selects nothing. *)
Theorem anchored_glob_never_matches (pat : string) (p : path) (is_absolute : bool) :
  startswith_sep pat = true →
  Forall (λ name, name ≠ "" ∧ startswith_sep name = false) p →
  match_pattern (relpath p) (Glob pat) is_absolute = false.
Proof.
  intros Hpat Hp. unfold match_pattern. rewrite Hpat.
  apply relpath_not_anchored in Hp.
  destruct (translate_anchored pat Hpat) as [ts Hts].
  unfold fnmatch. rewrite Hts.
  destruct (relpath p) as [|c rel]; [reflexivity|].
  cbn in Hp |- *. by rewrite Hp.
Qed.

Lemma anchored_glob_never_matches_witness :
  startswith_sep "/cache" = true
  ∧ Forall (λ name, name ≠ "" ∧ startswith_sep name = false) ["cache"]
  ∧ match_pattern (relpath ["cache"]) (Glob "/cache") false = false.
Proof.
  assert (H : Forall (λ name, name ≠ "" ∧ startswith_sep name = false) ["cache"])
    by (repeat constructor; discriminate).
  split; [reflexivity|]. split; [exact H|].
  apply anchored_glob_never_matches; [reflexivity|exact H].
Defined.

(** X8: a glob that does not start with the separator and matches a
    relative path also matches that path below any parent directory. *)
Theorem relative_glob_matches_below (pat rel parent : string) :
  startswith_sep pat = false →
  match_pattern rel (Glob pat) false = true →
  match_pattern (parent +:+ "/" +:+ rel) (Glob pat) false = true.
Proof.
  intros Hpat. unfold match_pattern. rewrite Hpat.
  rewrite !orb_true_iff, !fnmatch_star_sep.
  intros [H | (pre & suf & -> & H)]; right.
  - eauto.
  - exists (parent +:+ "/" +:+ pre), suf. split; [|done].
    rewrite append_assoc. f_equal.
Qed.

Lemma relative_glob_matches_below_witness :
  startswith_sep "*.log" = false
  ∧ match_pattern "x.log" (Glob "*.log") false = true
  ∧ match_pattern ("var" +:+ "/" +:+ "x.log") (Glob "*.log") false = true.
Proof.
  split; [reflexivity|]. split; [reflexivity|].
  apply relative_glob_matches_below; reflexivity.
Defined.

(** ** [should_follow_link] *)

(** X9: the answer is False, and [visited_inodes] is left as it was,
    whenever symlinks are not followed or the path is not a symlink. *)
Theorem should_follow_link_only_links (fs : node) (p : path)
    (follow_symlinks one_filesystem : bool) (visited_inodes : gset (Z * Z)) :
  follow_symlinks = false ∨ os_path_islink fs p = false →
  should_follow_link fs p follow_symlinks one_filesystem visited_inodes
  = Ok (false, visited_inodes).
Proof.
  intros [-> | Hlink]; [reflexivity|].
  unfold should_follow_link, os_path_islink, os_lstat in *.
  destruct follow_symlinks; [|reflexivity]. cbn [negb].
  destruct (resolve fs p) as [n|]; [|reflexivity]. cbn.
  destruct (node_lstat n); [|reflexivity]. by rewrite Hlink.
Qed.

Lemma should_follow_link_only_links_witness :
  (true = false ∨ os_path_islink nested_tree ["sub"] = false)
  ∧ should_follow_link nested_tree ["sub"] true false ∅ = Ok (false, ∅).
Proof.
  split; [right; reflexivity|].
  apply should_follow_link_only_links. right. reflexivity.
Defined.

(** X10: when the answer is True, [visited_inodes] has grown by exactly the
    link's own (device, inode), which was not in it before; in every other
    non-failing case the set is unchanged. *)
Theorem should_follow_link_records (fs : node) (p : path)
    (follow_symlinks one_filesystem : bool) (visited visited' : gset (Z * Z)) (b : bool) :
  should_follow_link fs p follow_symlinks one_filesystem visited = Ok (b, visited') →
  if b
  then (get_inode fs p ∉ visited) ∧ visited' = {[ get_inode fs p ]} ∪ visited
       ∧ os_path_islink fs p = true ∧ follow_symlinks = true
  else visited' = visited.
Proof.
  unfold should_follow_link, get_inode, os_path_islink.
  destruct follow_symlinks; cbn [negb]; [|by intros [= <- <-]].
  destruct (resolve fs p) as [n|] eqn:Hres; [|by intros [= <- <-]].
  destruct (os_lstat fs p) as [stat_info|]; [|by intros [= <- <-]].
  destruct (is_link n) eqn:Hlink; cbn [negb]; [|by intros [= <- <-]].
  destruct (if one_filesystem then _ else _) as [[|]|]; try by intros [= <- <-].
  case_bool_decide as Hin; [discriminate|]. intros [= <- <-]. done.
Qed.

Lemma should_follow_link_records_witness :
  should_follow_link (cycle_tree 1) ["loop"] true false ∅ = Ok (true, {[ (1, 3) ]} ∪ ∅)
  ∧ (get_inode (cycle_tree 1) ["loop"] ∉ (∅ : gset (Z * Z)))
  ∧ os_path_islink (cycle_tree 1) ["loop"] = true.
Proof.
  assert (H : should_follow_link (cycle_tree 1) ["loop"] true false ∅
              = Ok (true, {[ (1, 3) ]} ∪ ∅)) by reflexivity.
  split; [exact H|].
  pose proof (should_follow_link_records _ _ _ _ _ _ _ H) as (H1 & _ & H3 & _).
  split; [exact H1|exact H3].
Defined.

(** X11: asking again about a link that was just followed, with the set
    the first call produced, raises [TraversalError]. *)
Theorem should_follow_link_detects_revisit (fs : node) (p : path)
    (one_filesystem : bool) (visited visited' : gset (Z * Z)) :
  should_follow_link fs p true one_filesystem visited = Ok (true, visited') →
  should_follow_link fs p true one_filesystem visited' = Raise TraversalError.
Proof.
  unfold should_follow_link. cbn [negb].
  destruct (resolve fs p) as [n|]; [|discriminate].
  destruct (os_lstat fs p) as [stat_info|]; [|discriminate].
  destruct (is_link n); cbn [negb]; [|discriminate].
  destruct (if one_filesystem then _ else _) as [[|]|]; try discriminate.
  case_bool_decide; [discriminate|]. intros [= <-].
  rewrite bool_decide_eq_true_2; [reflexivity|]. set_solver.
Qed.

Lemma should_follow_link_detects_revisit_witness :
  should_follow_link (cycle_tree 1) ["loop"] true false ∅ = Ok (true, {[ (1, 3) ]} ∪ ∅)
  ∧ should_follow_link (cycle_tree 1) ["loop"] true false ({[ (1, 3) ]} ∪ ∅)
    = Raise TraversalError.
Proof.
  assert (H : should_follow_link (cycle_tree 1) ["loop"] true false ∅
              = Ok (true, {[ (1, 3) ]} ∪ ∅)) by reflexivity.
  split; [exact H|]. exact (should_follow_link_detects_revisit _ _ _ _ _ H).
Defined.

(** X12: with [one_filesystem], a link whose target lies on another device
    than the directory holding the link is not followed and not recorded. *)
Theorem should_follow_link_stays_on_device (fs : node) (p : path)
    (visited : gset (Z * Z)) (target_stat parent_stat : stat_result) :
  os_stat fs p = Some target_stat →
  os_stat fs (dirname p) = Some parent_stat →
  st_dev target_stat ≠ st_dev parent_stat →
  should_follow_link fs p true true visited = Ok (false, visited).
Proof.
  intros Ht Hp Hdev. unfold should_follow_link. cbn [negb].
  destruct (resolve fs p) as [n|]; [|reflexivity].
  destruct (os_lstat fs p); [|reflexivity].
  destruct (is_link n); [|reflexivity]. cbn [negb].
  rewrite Ht, Hp. destruct (Z.eqb_spec (st_dev target_stat) (st_dev parent_stat)); done.
Qed.

Lemma should_follow_link_stays_on_device_witness :
  os_stat linked_mount_tree ["ext"] = Some (mkStat 2 9 8)
  ∧ os_stat linked_mount_tree (dirname ["ext"]) = Some (mkStat 1 1 8)
  ∧ st_dev (mkStat 2 9 8) ≠ st_dev (mkStat 1 1 8)
  ∧ should_follow_link linked_mount_tree ["ext"] true true ∅ = Ok (false, ∅).
Proof.
  split; [reflexivity|]. split; [reflexivity|]. split; [discriminate|].
  apply (should_follow_link_stays_on_device _ _ _ (mkStat 2 9 8) (mkStat 1 1 8));
    [reflexivity|reflexivity|discriminate].
Defined.

(** ** More on the index *)

Lemma update_keeps (kvs : list (path * Z)) (sizes : gmap path Z) (k : path) :
  is_Some (sizes !! k) → is_Some (update sizes kvs !! k).
Proof.
  revert sizes. induction kvs as [|[p v] kvs IH]; intros sizes Hk; [done|].
  unfold update in *. cbn [fold_left fst snd]. apply IH.
  rewrite lookup_insert. case_decide; eauto.
Qed.

Lemma merge_batches_keeps (fs : node) (followlinks : bool) (bs : list (list path))
    (sizes : gmap path Z) (k : path) :
  is_Some (sizes !! k) →
  is_Some (fold_left (merge_batch fs followlinks) bs sizes !! k).
Proof.
  revert sizes. induction bs as [|b bs IH]; intros sizes Hk; [done|].
  cbn [fold_left]. apply IH. unfold merge_batch.
  destruct (probe_batch fs followlinks b); [by apply update_keeps|done].
Qed.

(** X13: the scan root is always a key of the returned index, so an index
    is never empty. *)
Theorem walk_directory_has_root (fs : node) (max_depth : option Z) (followlinks : bool)
    (wl : list pattern) (one_filesystem use_parallel : bool) (sizes : gmap path Z) :
  walk_directory fs max_depth followlinks wl one_filesystem use_parallel = Ok sizes →
  is_Some (sizes !! []) ∧ sizes ≠ ∅.
Proof.
  intros Hwalk.
  assert (Hroot : is_Some (sizes !! [])).
  { unfold walk_directory in Hwalk.
    assert (Hsizes : sizes = if use_parallel
                             then parallel_sizes fs max_depth followlinks wl {[ [] := 0 ]}
                             else sequential_sizes fs max_depth followlinks wl {[ [] := 0 ]}).
    { destruct one_filesystem; [destruct (os_stat fs [])|]; congruence. }
    subst sizes. clear Hwalk.
    assert (H0 : is_Some (({[ [] := 0 ]} : gmap path Z) !! []))
      by (rewrite lookup_singleton_eq; eauto).
    destruct use_parallel.
    - unfold parallel_sizes.
      destruct (first_pass fs max_depth followlinks wl) as [dir_paths file_paths].
      apply aggregate_keeps. left. cbn [fst]. by apply merge_batches_keeps.
    - unfold sequential_sizes. apply sequential_keeps. by left. }
  split; [exact Hroot|]. intros ->. rewrite lookup_empty in Hroot. by destruct Hroot.
Qed.

Lemma walk_directory_has_root_witness :
  walk_directory nested_tree (Some 0) false [] false true
  = Ok (sizes_of (walk_directory nested_tree (Some 0) false [] false true))
  ∧ is_Some (sizes_of (walk_directory nested_tree (Some 0) false [] false true) !! []).
Proof.
  split; [reflexivity|].
  exact (proj1 (walk_directory_has_root nested_tree (Some 0) false [] false true _ eq_refl)).
Defined.

Lemma resolve_nonneg (p : path) :
  ∀ (fs n : node), nonneg_blocks fs = true → resolve fs p = Some n →
                   nonneg_blocks n = true.
Proof.
  induction p as [|name rest IH]; intros fs n Hfs Hres.
  - by injection Hres as <-.
  - destruct fs as [| | |lnk st entries]; try discriminate. cbn [resolve] in Hres.
    destruct (assoc name entries) as [child|] eqn:Hassoc; [|discriminate].
    apply (IH child); [|done]. cbn in Hfs.
    apply andb_true_iff in Hfs as [_ Hfs]. rewrite forallb_forall in Hfs.
    apply (Hfs (name, child)). apply list_elem_of_In. by apply assoc_elem_of.
Qed.

Lemma node_stat_nonneg (n : node) (st : stat_result) :
  nonneg_blocks n = true → node_stat n = Some st ∨ node_lstat n = Some st →
  0 ≤ st_blocks st.
Proof.
  intros Hn Hst. destruct n as [[s|]|l [s|]| |[l|] s entries]; cbn in Hn, Hst;
    destruct Hst as [Hst | Hst]; try discriminate; injection Hst as <-;
    repeat (apply andb_true_iff in Hn as [Hn ?]); lia.
Qed.

Lemma probe_nonneg (fs : node) (followlinks : bool) (p : path) (v : Z) :
  nonneg_blocks fs = true → probe fs followlinks p = Some v → 0 ≤ v.
Proof.
  intros Hfs. unfold probe, os_lstat, os_stat.
  destruct (resolve fs p) as [n|] eqn:Hres;
    [|by destruct (os_path_islink fs p && negb followlinks)].
  pose proof (resolve_nonneg _ _ _ Hfs Hres) as Hn.
  destruct (os_path_islink fs p && negb followlinks); cbn;
    [destruct (node_lstat n) as [st|] eqn:Hst | destruct (node_stat n) as [st|] eqn:Hst];
    cbn; try discriminate; intros [= <-];
    assert (0 ≤ st_blocks st) by (eapply node_stat_nonneg; eauto); lia.
Qed.

Lemma update_nonneg (kvs : list (path * Z)) (sizes : gmap path Z) :
  Forall (λ kv, 0 ≤ snd kv) kvs →
  map_Forall (λ _ v, 0 ≤ v) sizes →
  map_Forall (λ _ v, 0 ≤ v) (update sizes kvs).
Proof.
  intros Hkvs. revert sizes. induction Hkvs as [|[p v] kvs Hv _ IH]; intros sizes Hs; [done|].
  unfold update in *. cbn [fold_left fst snd]. apply IH. by apply map_Forall_insert_2.
Qed.

Lemma probe_batch_nonneg (fs : node) (followlinks : bool) (b : list path)
    (kvs : list (path * Z)) :
  nonneg_blocks fs = true → probe_batch fs followlinks b = Some kvs →
  Forall (λ kv, 0 ≤ snd kv) kvs.
Proof.
  intros Hfs. unfold probe_batch. generalize (filter (λ p, os_path_exists fs p) b).
  intros l Hm. apply mapM_Some in Hm.
  induction Hm as [|p [q v] l kvs Hp _ IH]; constructor; [|done].
  destruct (probe fs followlinks p) as [sz|] eqn:Hprobe; [|discriminate].
  injection Hp as <- <-. cbn. by eapply probe_nonneg.
Qed.

Lemma sum_children_nonneg (sizes : gmap path Z) (dirpath : path) (names : list string) :
  map_Forall (λ _ v, 0 ≤ v) sizes → 0 ≤ sum_children sizes dirpath names.
Proof.
  intros Hs. unfold sum_children.
  assert (H : ∀ acc, 0 ≤ acc →
            0 ≤ fold_left (λ dir_size name,
                             match sizes !! join dirpath name with
                             | Some v => dir_size + v
                             | None => dir_size
                             end) names acc); [|by apply H].
  induction names as [|name names IH]; intros acc Hacc; [done|].
  cbn [fold_left]. apply IH.
  destruct (sizes !! join dirpath name) as [v|] eqn:Hv; [|done].
  pose proof (Hs _ _ Hv). cbn in *. lia.
Qed.

Lemma aggregate_nonneg (fs : node) (dirs : list path) (st : gmap path Z * gmap path Z) :
  map_Forall (λ _ v, 0 ≤ v) (fst st) →
  map_Forall (λ _ v, 0 ≤ v) (fst (fold_left (aggregate_dir fs) dirs st)).
Proof.
  revert st. induction dirs as [|D dirs IH]; intros st Hs; [done|].
  cbn [fold_left]. apply IH. rewrite aggregate_dir_sizes.
  apply map_Forall_insert_2; [|done]. unfold dir_size_of.
  destruct (os_scandir fs D); [by apply sum_children_nonneg|done].
Qed.

Lemma add_to_parent_nonneg (m : gmap path Z) (dirpath : path) (dir_size : Z) :
  0 ≤ dir_size → map_Forall (λ _ v, 0 ≤ v) m →
  map_Forall (λ _ v, 0 ≤ v) (add_to_parent m dirpath dir_size).
Proof.
  intros Hd Hm. unfold add_to_parent. case_decide; [done|].
  destruct (m !! dirname dirpath) as [v|] eqn:Hv; [|done].
  apply map_Forall_insert_2; [|done]. pose proof (Hm _ _ Hv). cbn in *. lia.
Qed.

Lemma seq_file_nonneg (fs : node) (followlinks : bool) (dirpath : path) (record : bool)
    (filenames : list string) (st : Z * gmap path Z) :
  nonneg_blocks fs = true →
  0 ≤ fst st → map_Forall (λ _ v, 0 ≤ v) (snd st) →
  0 ≤ fst (fold_left (seq_file fs followlinks dirpath record) filenames st)
  ∧ map_Forall (λ _ v, 0 ≤ v)
      (snd (fold_left (seq_file fs followlinks dirpath record) filenames st)).
Proof.
  intros Hfs. revert st.
  induction filenames as [|f filenames IH]; intros [dir_size sizes] Hd Hs; [done|].
  cbn [fold_left]. unfold seq_file at 2 4.
  destruct (probe fs followlinks (join dirpath f)) as [v|] eqn:Hv; [|by apply IH].
  pose proof (probe_nonneg _ _ _ _ Hfs Hv). cbn [fst snd] in *.
  apply IH; cbn [fst snd]; [lia|].
  destruct record; [by apply map_Forall_insert_2|done].
Qed.

Lemma sequential_nonneg (fs : node) (max_depth : option Z) (followlinks : bool)
    (wl : list pattern) (items : list walk_item) (sizes : gmap path Z) :
  nonneg_blocks fs = true →
  map_Forall (λ _ v, 0 ≤ v) sizes →
  map_Forall (λ _ v, 0 ≤ v) (fold_left (seq_dir fs max_depth followlinks wl) items sizes).
Proof.
  intros Hfs. revert sizes.
  induction items as [|[[dirpath dirnames] filenames] items IH]; intros sizes Hs; [done|].
  cbn [fold_left]. apply IH. unfold seq_dir.
  destruct (beyond_depth max_depth wl dirpath); [done|].
  match goal with
  | |- context [fold_left (seq_file _ _ _ ?record) filenames ?st] =>
      destruct (seq_file_nonneg fs followlinks dirpath record filenames st Hfs)
        as [Hd Hs']; [done|done|];
      destruct (fold_left (seq_file fs followlinks dirpath record) filenames st)
        as [dir_size sizes']
  end.
  cbn [fst snd] in *. apply add_to_parent_nonneg; [done|].
  by apply map_Forall_insert_2.
Qed.

Lemma walk_directory_Ok_sizes (fs : node) (max_depth : option Z) (followlinks : bool)
    (wl : list pattern) (one_filesystem use_parallel : bool) (sizes : gmap path Z) :
  walk_directory fs max_depth followlinks wl one_filesystem use_parallel = Ok sizes →
  sizes = if use_parallel
          then parallel_sizes fs max_depth followlinks wl {[ [] := 0 ]}
          else sequential_sizes fs max_depth followlinks wl {[ [] := 0 ]}.
Proof.
  unfold walk_directory.
  destruct one_filesystem; [destruct (os_stat fs [])|]; congruence.
Qed.

Lemma parallel_sizes_nonneg (fs : node) (max_depth : option Z) (followlinks : bool)
    (wl : list pattern) (sizes : gmap path Z) :
  nonneg_blocks fs = true →
  map_Forall (λ _ v, 0 ≤ v) sizes →
  map_Forall (λ _ v, 0 ≤ v) (parallel_sizes fs max_depth followlinks wl sizes).
Proof.
  intros Hfs H0. unfold parallel_sizes.
  destruct (first_pass fs max_depth followlinks wl) as [dir_paths file_paths].
  apply aggregate_nonneg. cbn [fst].
  generalize (file_batches file_paths). intros bs.
  revert sizes H0. induction bs as [|b bs IH]; intros m Hm; [done|].
  cbn [fold_left]. apply IH. unfold merge_batch.
  destruct (probe_batch fs followlinks b) as [kvs|] eqn:Hb; [|done].
  apply update_nonneg; [|done]. by eapply probe_batch_nonneg.
Qed.

Lemma root_only_nonneg : map_Forall (λ _ v, 0 ≤ v) ({[ [] := 0 ]} : gmap path Z).
Proof. intros k v. rewrite lookup_singleton. case_decide; [|done]. by intros [= <-]. Qed.

(** X14: when no block count of the snapshot is negative, no size in the
    index is negative, under either strategy. *)
Theorem walk_directory_nonneg (fs : node) (max_depth : option Z) (followlinks : bool)
    (wl : list pattern) (one_filesystem use_parallel : bool) (sizes : gmap path Z) :
  nonneg_blocks fs = true →
  walk_directory fs max_depth followlinks wl one_filesystem use_parallel = Ok sizes →
  map_Forall (λ _ v, 0 ≤ v) sizes.
Proof.
  intros Hfs Hwalk. apply walk_directory_Ok_sizes in Hwalk as ->.
  destruct use_parallel.
  - apply parallel_sizes_nonneg; [done|apply root_only_nonneg].
  - unfold sequential_sizes. apply sequential_nonneg; [done|apply root_only_nonneg].
Qed.

Lemma walk_directory_nonneg_witness :
  nonneg_blocks deep_tree = true
  ∧ map_Forall (λ _ v, 0 ≤ v)
      (sizes_of (walk_directory deep_tree (Some 1) false [] false false)).
Proof.
  split; [reflexivity|].
  exact (walk_directory_nonneg deep_tree (Some 1) false [] false false _ eq_refl eq_refl).
Defined.

(** X15: with no patterns, a zero floor and no cut, filtering the index of
    such a snapshot returns the whole index. *)
Theorem filter_after_walk_keeps_all (fs : node) (max_depth : option Z) (followlinks : bool)
    (wl : list pattern) (one_filesystem use_parallel all_files : bool)
    (sizes : gmap path Z) :
  nonneg_blocks fs = true →
  walk_directory fs max_depth followlinks wl one_filesystem use_parallel = Ok sizes →
  filter_paths sizes 0 None [] [] all_files = sizes.
Proof.
  intros Hfs Hwalk. apply walk_directory_Ok_sizes in Hwalk as ->.
  assert (Hpos : map_Forall (λ _ v, 0 ≤ v)
                   (if use_parallel
                    then parallel_sizes fs max_depth followlinks wl {[ [] := 0 ]}
                    else sequential_sizes fs max_depth followlinks wl {[ [] := 0 ]})).
  { destruct use_parallel.
    - apply parallel_sizes_nonneg; [done|apply root_only_nonneg].
    - unfold sequential_sizes. apply sequential_nonneg; [done|apply root_only_nonneg]. }
  apply map_eq. intros p. apply option_eq. intros size.
  rewrite filter_paths_lookup. split; [tauto|]. intros Hp.
  split; [done|]. split; [reflexivity|]. split; [|done].
  left. exact (Hpos p size Hp).
Qed.

Lemma filter_after_walk_keeps_all_witness :
  nonneg_blocks deep_tree = true
  ∧ filter_paths (sizes_of (walk_directory deep_tree (Some 1) false [] false true))
                 0 None [] [] false
    = sizes_of (walk_directory deep_tree (Some 1) false [] false true).
Proof.
  split; [reflexivity|].
  exact (filter_after_walk_keeps_all deep_tree (Some 1) false [] false true false _
           eq_refl eq_refl).
Defined.

(** ** Paths of the walk and the snapshot *)

Lemma resolve_app (p q : path) :
  ∀ fs, resolve fs (p ++ q) = resolve fs p ≫= (λ n, resolve n q).
Proof.
  induction p as [|name rest IH]; intros fs; [reflexivity|].
  cbn [app resolve]. destruct fs as [| | |lnk st entries]; try reflexivity.
  destruct (assoc name entries); [apply IH|reflexivity].
Qed.

Lemma resolve_wf (p : path) :
  ∀ (fs n : node), wf_node fs = true → resolve fs p = Some n → wf_node n = true.
Proof.
  induction p as [|name rest IH]; intros fs n Hfs Hres.
  - by injection Hres as <-.
  - destruct fs as [| | |lnk st entries]; try discriminate. cbn [resolve] in Hres.
    destruct (assoc name entries) as [child|] eqn:Hassoc; [|discriminate].
    apply (IH child); [|done]. cbn in Hfs.
    apply andb_true_iff in Hfs as [_ Hfs]. rewrite forallb_forall in Hfs.
    apply (Hfs (name, child)). apply list_elem_of_In. by apply assoc_elem_of.
Qed.

Lemma nondirs_assoc (entries : list (string * node)) (f : string) :
  NoDup (map fst entries) → f ∈ nondirs_of entries →
  ∃ c, assoc f entries = Some c ∧ is_dir c = false.
Proof.
  intros Hnd Hf. unfold nondirs_of in Hf.
  apply list_elem_of_In, in_map_iff in Hf as ([name c] & Hname & Hin).
  cbn in Hname. subst name.
  apply list_elem_of_In, list_elem_of_filter in Hin as [Hc Hin]. cbn in Hc.
  exists c. split; [by apply assoc_NoDup|].
  by apply negb_True, Is_true_false in Hc.
Qed.

(** A listed non-directory is not a directory of the snapshot, and nothing
    resolves below it. *)
Lemma nondir_not_above_dir (fs : node) (D' X : path) (f : string)
    (lnk : option stat_result) (st : stat_result) (entries : list (string * node)) :
  wf_node fs = true →
  resolve fs D' = Some (Dir lnk st entries) →
  f ∈ nondirs_of entries →
  (resolve fs X ≫= (λ d, Some (is_dir d))) = Some true →
  ¬ join D' f `prefix_of` X.
Proof.
  intros Hwf HD' Hf HX [q ->].
  pose proof (resolve_wf _ _ _ Hwf HD') as Hwf'. cbn in Hwf'.
  apply andb_true_iff in Hwf' as [Hnd _]. apply bool_decide_eq_true in Hnd.
  destruct (nondirs_assoc _ _ Hnd Hf) as (c & Hassoc & Hc).
  unfold join in HX. rewrite !resolve_app, HD' in HX. cbn in HX.
  rewrite Hassoc in HX. destruct q; cbn in HX.
  - rewrite Hc in HX. discriminate.
  - destruct c; discriminate.
Qed.

Lemma walk_bottomup_items (followlinks : bool) (n : node) :
  wf_node n = true →
  ∀ (top : path) (item : walk_item),
    item ∈ walk_bottomup followlinks top n →
    ∃ suffix lnk st entries,
      resolve n suffix = Some (Dir lnk st entries)
      ∧ item = (top ++ suffix, dirs_of entries, nondirs_of entries).
Proof.
  induction n as [| | |lnk st entries IH] using node_induction;
    intros Hwf top item Hin; cbn in Hin; try by apply elem_of_nil in Hin.
  cbn in Hwf. apply andb_true_iff in Hwf as [Hnd Hwf].
  apply bool_decide_eq_true in Hnd. rewrite forallb_forall in Hwf.
  apply elem_of_app in Hin as [Hin | Hin].
  - apply elem_of_flat_map in Hin as ([name child] & He & Hin). cbn [fst snd] in Hin.
    destruct (walk_into followlinks child); [|by apply elem_of_nil in Hin].
    rewrite Forall_forall in IH.
    destruct (IH _ He (Hwf _ (proj1 (list_elem_of_In _ _) He)) _ _ Hin)
      as (suffix & lnk' & st' & entries' & Hres & ->).
    exists (name :: suffix), lnk', st', entries'.
    split; [cbn [resolve]; by rewrite (assoc_NoDup _ _ _ Hnd He)|].
    unfold join. by rewrite <- app_assoc.
  - apply list_elem_of_singleton in Hin as ->.
    exists [], lnk, st, entries. split; [reflexivity|]. by rewrite app_nil_r.
Qed.

Lemma walk_bottomup_prefix (followlinks : bool) (n : node) :
  ∀ (top : path) (item : walk_item),
    item ∈ walk_bottomup followlinks top n → top `prefix_of` fst (fst item).
Proof.
  induction n as [| | |lnk st entries IH] using node_induction;
    intros top item Hin; cbn in Hin; try by apply elem_of_nil in Hin.
  apply elem_of_app in Hin as [Hin | Hin].
  - apply elem_of_flat_map in Hin as ([name child] & He & Hin). cbn [fst snd] in Hin.
    destruct (walk_into followlinks child); [|by apply elem_of_nil in Hin].
    rewrite Forall_forall in IH. apply (IH _ He) in Hin. by apply prefix_app_l in Hin.
  - by apply list_elem_of_singleton in Hin as ->.
Qed.

(** In the bottom-up order no directory comes before one of its
    descendants, and none is visited twice. *)
Lemma walk_bottomup_sorted (followlinks : bool) (n : node) :
  wf_node n = true →
  ∀ top, StronglySorted (λ x y : walk_item, ¬ fst (fst x) `prefix_of` fst (fst y))
           (walk_bottomup followlinks top n).
Proof.
  induction n as [| | |lnk st entries IH] using node_induction;
    intros Hwf top; try constructor.
  cbn in Hwf. apply andb_true_iff in Hwf as [Hnd Hwf].
  apply bool_decide_eq_true in Hnd. rewrite forallb_forall in Hwf.
  cbn [walk_bottomup]. apply StronglySorted_app. split; [|split].
  - intros x y Hx Hy. apply list_elem_of_singleton in Hy as ->. cbn [fst].
    apply elem_of_flat_map in Hx as ([name child] & He & Hx). cbn [fst snd] in Hx.
    destruct (walk_into followlinks child); [|by apply elem_of_nil in Hx].
    apply walk_bottomup_prefix in Hx. intros Hpre.
    apply (prefix_snoc_not top name). unfold join in Hx. by etrans.
  - rewrite Forall_forall in IH. clear st lnk.
    induction entries as [|[name child] entries IHe]; [constructor|].
    cbn [map fst] in Hnd. apply NoDup_cons in Hnd as [Hname Hnd].
    cbn [flat_map fst snd]. apply StronglySorted_app. split; [|split].
    + intros x y Hx Hy.
      destruct (walk_into followlinks child); [|by apply elem_of_nil in Hx].
      apply walk_bottomup_prefix in Hx.
      apply elem_of_flat_map in Hy as ([name' child'] & He & Hy). cbn [fst snd] in Hy.
      destruct (walk_into followlinks child'); [|by apply elem_of_nil in Hy].
      apply walk_bottomup_prefix in Hy.
      eapply siblings_unrelated; [|exact Hy|exact Hx].
      intros ->. apply Hname. apply list_elem_of_In, in_map_iff.
      exists (name, child'). split; [done|]. by apply list_elem_of_In.
    + destruct (walk_into followlinks child); [|constructor].
      apply (IH (name, child)); [apply elem_of_cons; by left|].
      apply Hwf. by left.
    + apply IHe.
      * intros e He. apply IH. apply elem_of_cons. by right.
      * done.
      * intros e He. apply Hwf. by right.
  - repeat constructor.
Qed.

(** ** The sequential loop *)

Lemma join_inj (D D' : path) (f f' : string) : join D f = join D' f' → D = D' ∧ f = f'.
Proof. unfold join. intros H. apply app_inj_2 in H as [? [= ?]]; done. Qed.

Lemma dirname_prefix (D : path) : D ≠ [] → join (dirname D) (List.last D "") = D.
Proof.
  intros HD. unfold join, dirname. symmetry. by apply app_removelast_last.
Qed.

Lemma seq_file_fst (fs : node) (followlinks : bool) (D : path) (record : bool)
    (filenames : list string) (st : Z * gmap path Z) :
  fst (fold_left (seq_file fs followlinks D record) filenames st)
  = fold_left (λ dir_size filename,
                 match probe fs followlinks (join D filename) with
                 | Some file_size => dir_size + file_size
                 | None => dir_size
                 end) filenames (fst st).
Proof.
  revert st. induction filenames as [|f filenames IH]; intros [a s]; [done|].
  cbn [fold_left]. rewrite IH. f_equal. unfold seq_file.
  by destruct (probe fs followlinks (join D f)).
Qed.

Lemma seq_file_other (fs : node) (followlinks : bool) (D : path) (record : bool)
    (filenames : list string) (st : Z * gmap path Z) (k : path) :
  (∀ f, f ∈ filenames → k ≠ join D f) →
  snd (fold_left (seq_file fs followlinks D record) filenames st) !! k = snd st !! k.
Proof.
  revert st. induction filenames as [|f filenames IH]; intros [a s] Hk; [done|].
  cbn [fold_left]. rewrite IH by (intros f' Hf'; apply Hk; by right).
  unfold seq_file. destruct (probe fs followlinks (join D f)); [|done].
  destruct record; [|done]. cbn [snd].
  apply lookup_insert_ne. intros Heq. apply (Hk f); [by left|done].
Qed.

Lemma seq_file_recorded (fs : node) (followlinks : bool) (D : path)
    (filenames : list string) (st : Z * gmap path Z) (f : string) :
  f ∈ filenames →
  snd (fold_left (seq_file fs followlinks D true) filenames st) !! join D f
  = match probe fs followlinks (join D f) with
    | Some v => Some v
    | None => snd st !! join D f
    end.
Proof.
  revert st. induction filenames as [|f0 filenames IH]; intros [a s] Hf;
    [by apply elem_of_nil in Hf|].
  cbn [fold_left].
  assert (Hstep : snd (seq_file fs followlinks D true (a, s) f0) !! join D f
                  = match probe fs followlinks (join D f) with
                    | Some v => if decide (f0 = f) then Some v else s !! join D f
                    | None => s !! join D f
                    end).
  { unfold seq_file. destruct (decide (f0 = f)) as [-> | Hne].
    - destruct (probe fs followlinks (join D f)); cbn [snd]; [|done].
      by rewrite lookup_insert_eq.
    - destruct (probe fs followlinks (join D f0)); cbn [snd];
        [rewrite lookup_insert_ne by (intros [_ ?]%join_inj; done)|];
        by destruct (probe fs followlinks (join D f)). }
  destruct (decide (f ∈ filenames)) as [Hin | Hnin].
  - rewrite IH by done. rewrite Hstep.
    by destruct (probe fs followlinks (join D f)).
  - rewrite seq_file_other
      by (intros f' Hf' [_ ->]%join_inj; done).
    rewrite Hstep. apply elem_of_cons in Hf as [-> | Hf]; [|done].
    destruct (probe fs followlinks (join D f0)); [|done]. by rewrite decide_True.
Qed.

Lemma not_beyond_record (max_depth : option Z) (wl : list pattern) (D : path) :
  beyond_depth max_depth wl D = false →
  match max_depth with
  | None => true
  | Some m => (depth_of D <=? m) || is_whitelisted wl D
  end = true.
Proof.
  unfold beyond_depth. destruct max_depth as [m|]; [|done].
  destruct (is_whitelisted wl D); [by rewrite orb_true_r|]. cbn.
  intros H. rewrite orb_false_r. lia.
Qed.

(** What one iteration leaves alone. *)
Lemma seq_dir_other (fs : node) (max_depth : option Z) (followlinks : bool)
    (wl : list pattern) (sizes : gmap path Z) (item : walk_item) (k : path) :
  k ≠ fst (fst item) →
  ¬ k `prefix_of` dirname (fst (fst item)) ∨ fst (fst item) = [] →
  (∀ f, f ∈ snd item → k ≠ join (fst (fst item)) f) →
  seq_dir fs max_depth followlinks wl sizes item !! k = sizes !! k.
Proof.
  destruct item as [[D dn] fn]. cbn [fst snd]. intros HkD Hkp Hkf. unfold seq_dir.
  destruct (beyond_depth max_depth wl D); [done|].
  match goal with
  | |- context [fold_left (seq_file _ _ _ ?record) fn ?st] =>
      pose proof (seq_file_other fs followlinks D record fn st k Hkf) as Hf;
      destruct (fold_left (seq_file fs followlinks D record) fn st) as [dir_size sizes']
  end.
  cbn [snd] in Hf. unfold add_to_parent.
  assert (Hins : <[D := dir_size]> sizes' !! k = sizes !! k)
    by (rewrite lookup_insert_ne by done; exact Hf).
  case_decide as HD; [done|].
  destruct (<[D := dir_size]> sizes' !! dirname D); [|done].
  rewrite lookup_insert_ne; [done|].
  intros <-. destruct Hkp as [Hkp | ?]; [|done]. by apply Hkp.
Qed.

Lemma seq_fold_other (fs : node) (max_depth : option Z) (followlinks : bool)
    (wl : list pattern) (items : list walk_item) (sizes : gmap path Z) (k : path) :
  Forall (λ item : walk_item,
            k ≠ fst (fst item)
            ∧ (¬ k `prefix_of` dirname (fst (fst item)) ∨ fst (fst item) = [])
            ∧ ∀ f, f ∈ snd item → k ≠ join (fst (fst item)) f) items →
  fold_left (seq_dir fs max_depth followlinks wl) items sizes !! k = sizes !! k.
Proof.
  intros H. revert sizes. induction H as [|item items (H1 & H2 & H3) _ IH]; intros sizes;
    [done|].
  cbn [fold_left]. rewrite IH. by apply seq_dir_other.
Qed.

Lemma seq_dir_self (fs : node) (max_depth : option Z) (followlinks : bool)
    (wl : list pattern) (sizes : gmap path Z) (D : path) (dn fn : list string) :
  beyond_depth max_depth wl D = false →
  seq_dir fs max_depth followlinks wl sizes (D, dn, fn) !! D
  = Some (sum_probes fs followlinks D fn).
Proof.
  intros Hb. unfold seq_dir. rewrite Hb.
  match goal with
  | |- context [fold_left (seq_file _ _ _ ?record) fn ?st] =>
      pose proof (seq_file_fst fs followlinks D record fn st) as Hf;
      destruct (fold_left (seq_file fs followlinks D record) fn st) as [dir_size sizes']
  end.
  cbn [fst] in Hf. subst dir_size. fold (sum_probes fs followlinks D fn).
  unfold add_to_parent. case_decide as HD; [by rewrite lookup_insert_eq|].
  destruct (<[D := _]> sizes' !! dirname D); [|by rewrite lookup_insert_eq].
  rewrite lookup_insert_ne; [by rewrite lookup_insert_eq|].
  intros Heq. apply (join_ne (dirname D) (List.last D "")).
  rewrite dirname_prefix by done. done.
Qed.

Lemma seq_dir_file (fs : node) (max_depth : option Z) (followlinks : bool)
    (wl : list pattern) (sizes : gmap path Z) (D : path) (dn fn : list string)
    (f : string) :
  beyond_depth max_depth wl D = false → f ∈ fn →
  seq_dir fs max_depth followlinks wl sizes (D, dn, fn) !! join D f
  = match probe fs followlinks (join D f) with
    | Some v => Some v
    | None => sizes !! join D f
    end.
Proof.
  intros Hb Hf. unfold seq_dir. rewrite Hb, (not_beyond_record _ _ _ Hb).
  pose proof (seq_file_recorded fs followlinks D fn (0, sizes) f Hf) as Hrec.
  destruct (fold_left (seq_file fs followlinks D true) fn (0, sizes)) as [dir_size sizes'].
  cbn [snd] in Hrec. unfold add_to_parent.
  assert (Hins : <[D := dir_size]> sizes' !! join D f = sizes' !! join D f)
    by (apply lookup_insert_ne; symmetry; apply join_ne).
  case_decide as HD; [by rewrite Hins|].
  destruct (<[D := dir_size]> sizes' !! dirname D); [|by rewrite Hins].
  rewrite lookup_insert_ne; [by rewrite Hins|].
  intros Heq. apply (f_equal length) in Heq.
  pose proof (f_equal length (dirname_prefix D HD)) as Hlen.
  unfold join in Heq, Hlen. rewrite length_app in Heq, Hlen. cbn in Heq, Hlen. lia.
Qed.

Lemma dirname_prefix_of (D : path) : dirname D `prefix_of` D.
Proof.
  destruct (decide (D = [])) as [-> | HD]; [done|].
  rewrite <- (dirname_prefix D HD) at 2. apply prefix_join.
Qed.

Lemma walk_directory_sequential_Ok (fs : node) (max_depth : option Z) (followlinks : bool)
    (wl : list pattern) (one_filesystem : bool) (sizes : gmap path Z) :
  walk_directory fs max_depth followlinks wl one_filesystem false = Ok sizes →
  sizes = fold_left (seq_dir fs max_depth followlinks wl)
            (walk_bottomup followlinks [] fs) {[ [] := 0 ]}.
Proof.
  unfold walk_directory, sequential_sizes.
  destruct one_filesystem; [destruct (os_stat fs [])|]; congruence.
Qed.

(** Around one visited directory, the rest of the bottom-up walk. *)
Lemma walk_bottomup_split (fs : node) (followlinks : bool) (item : walk_item) :
  wf_node fs = true →
  item ∈ walk_bottomup followlinks [] fs →
  ∃ before after lnk st entries,
    walk_bottomup followlinks [] fs = before ++ item :: after
    ∧ resolve fs (fst (fst item)) = Some (Dir lnk st entries)
    ∧ snd item = nondirs_of entries
    ∧ Forall (λ x : walk_item, ¬ fst (fst x) `prefix_of` fst (fst item)) before
    ∧ Forall (λ y : walk_item, ¬ fst (fst item) `prefix_of` fst (fst y)) after
    ∧ Forall (λ z : walk_item,
                ∃ lnk' st' entries',
                  resolve fs (fst (fst z)) = Some (Dir lnk' st' entries')
                  ∧ snd z = nondirs_of entries') (before ++ after).
Proof.
  intros Hwf Hin.
  pose proof (walk_bottomup_sorted followlinks fs Hwf []) as Hsorted.
  pose proof (walk_bottomup_items followlinks fs Hwf []) as Hitems.
  destruct (Hitems item Hin) as (suffix & lnk & st & entries & Hres & Hitem).
  apply list_elem_of_split in Hin as (before & after & Hsplit).
  rewrite Hsplit in Hsorted, Hitems.
  apply StronglySorted_app in Hsorted as (Hcross & _ & Hafter).
  apply StronglySorted_cons in Hafter as [Hafter _].
  exists before, after, lnk, st, entries.
  split; [done|]. split; [by subst item|]. split; [by subst item|]. split; [|split].
  - apply Forall_forall. intros x Hx. apply Hcross; [done|]. apply elem_of_cons. by left.
  - exact Hafter.
  - apply Forall_forall. intros z Hz.
    destruct (Hitems z) as (suffix' & lnk' & st' & entries' & Hres' & ->).
    { apply elem_of_app in Hz as [Hz | Hz]; apply elem_of_app;
        [by left|right; apply elem_of_cons; by right]. }
    cbn [fst snd app]. eauto.
Qed.

(** X16: under the sequential strategy the size stored for a visited
    directory is the total of its own files that could be probed; what its
    subdirectories hold is not part of it. *)
Theorem sequential_directory_size (fs : node) (max_depth : option Z) (followlinks : bool)
    (wl : list pattern) (one_filesystem : bool) (sizes : gmap path Z)
    (D : path) (dirnames filenames : list string) :
  wf_node fs = true →
  walk_directory fs max_depth followlinks wl one_filesystem false = Ok sizes →
  (D, dirnames, filenames) ∈ walk_bottomup followlinks [] fs →
  beyond_depth max_depth wl D = false →
  sizes !! D = Some (sum_probes fs followlinks D filenames).
Proof.
  intros Hwf Hwalk Hin Hb. apply walk_directory_sequential_Ok in Hwalk as ->.
  destruct (walk_bottomup_split _ _ _ Hwf Hin)
    as (before & after & lnk & st & entries & -> & HD & _ & _ & Hafter & Hall).
  cbn [fst snd] in *. rewrite fold_left_app. cbn [fold_left].
  rewrite seq_fold_other; [by apply seq_dir_self|].
  apply Forall_app in Hall as [_ Hall].
  rewrite Forall_forall in Hafter, Hall |- *. intros y Hy.
  specialize (Hafter y Hy). destruct (Hall y Hy) as (lnk' & st' & entries' & Hy1 & Hy2).
  split; [|split].
  - intros ->. by apply Hafter.
  - left. intros Hpre. apply Hafter. etrans; [exact Hpre|apply dirname_prefix_of].
  - intros f Hf ->. rewrite Hy2 in Hf.
    eapply (nondir_not_above_dir fs (fst (fst y)) (join (fst (fst y)) f) f);
      [done|exact Hy1|exact Hf|by rewrite HD|done].
Qed.

Lemma sequential_directory_size_witness :
  wf_node deep_tree = true
  ∧ (["a"], ["b"], ["x"]) ∈ walk_bottomup false [] deep_tree
  ∧ beyond_depth None [] ["a"] = false
  ∧ sizes_of (walk_directory deep_tree None false [] false false) !! ["a"]
    = Some (sum_probes deep_tree false ["a"] ["x"]).
Proof.
  assert (Hin : (["a"], ["b"], ["x"]) ∈ walk_bottomup false [] deep_tree)
    by (apply list_elem_of_In; vm_compute; tauto).
  split; [reflexivity|]. split; [exact Hin|]. split; [reflexivity|].
  exact (sequential_directory_size deep_tree None false [] false _ _ _ _
           eq_refl eq_refl Hin eq_refl).
Defined.

(** X17: under the sequential strategy every file of a visited directory
    is in the index exactly when its probe succeeds, with the probed size:
    a failing probe leaves out that file alone. *)
Theorem sequential_file_size (fs : node) (max_depth : option Z) (followlinks : bool)
    (wl : list pattern) (one_filesystem : bool) (sizes : gmap path Z)
    (D : path) (dirnames filenames : list string) (f : string) :
  wf_node fs = true →
  walk_directory fs max_depth followlinks wl one_filesystem false = Ok sizes →
  (D, dirnames, filenames) ∈ walk_bottomup followlinks [] fs →
  beyond_depth max_depth wl D = false →
  f ∈ filenames →
  sizes !! join D f = probe fs followlinks (join D f).
Proof.
  intros Hwf Hwalk Hin Hb Hf. apply walk_directory_sequential_Ok in Hwalk as ->.
  destruct (walk_bottomup_split _ _ _ Hwf Hin)
    as (before & after & lnk & st & entries & -> & HD & Hfn & Hbefore & Hafter & Hall).
  cbn [fst snd] in *. subst filenames.
  assert (Hother : ∀ z : walk_item,
             (∃ lnk' st' entries',
                resolve fs (fst (fst z)) = Some (Dir lnk' st' entries')
                ∧ snd z = nondirs_of entries') →
             fst (fst z) ≠ D →
             join D f ≠ fst (fst z)
             ∧ (¬ join D f `prefix_of` dirname (fst (fst z)) ∨ fst (fst z) = [])
             ∧ ∀ f', f' ∈ snd z → join D f ≠ join (fst (fst z)) f').
  { intros z (lnk' & st' & entries' & Hz1 & Hz2) Hne.
    assert (Hnot : ¬ join D f `prefix_of` fst (fst z)).
    { eapply nondir_not_above_dir; [done|exact HD|exact Hf|by rewrite Hz1]. }
    split; [|split].
    - intros Heq. apply Hnot. by rewrite Heq.
    - left. intros Hpre. apply Hnot. etrans; [exact Hpre|apply dirname_prefix_of].
    - intros f' _ [? _]%join_inj. by apply Hne. }
  apply Forall_app in Hall as [Hall1 Hall2].
  rewrite fold_left_app. cbn [fold_left].
  rewrite seq_fold_other.
  - rewrite seq_dir_file by done.
    destruct (probe fs followlinks (join D f)); [done|].
    rewrite seq_fold_other.
    + apply lookup_singleton_ne. unfold join. by destruct D.
    + rewrite Forall_forall in Hbefore, Hall1 |- *. intros z Hz.
      apply Hother; [by apply Hall1|]. intros Heq. apply (Hbefore z Hz). by rewrite Heq.
  - rewrite Forall_forall in Hafter, Hall2 |- *. intros z Hz.
    apply Hother; [by apply Hall2|]. intros Heq. apply (Hafter z Hz). by rewrite Heq.
Qed.

Lemma sequential_file_size_witness :
  wf_node unreadable_tree = true
  ∧ ([], ["sub"], ["gone"; "f"]) ∈ walk_bottomup false [] unreadable_tree
  ∧ beyond_depth None [] [] = false
  ∧ "gone" ∈ ["gone"; "f"]
  ∧ sizes_of (walk_directory unreadable_tree None false [] false false) !! join [] "gone"
    = probe unreadable_tree false (join [] "gone").
Proof.
  assert (Hin : ([], ["sub"], ["gone"; "f"]) ∈ walk_bottomup false [] unreadable_tree)
    by (apply list_elem_of_In; vm_compute; tauto).
  assert (Hf : "gone" ∈ ["gone"; "f"]) by (apply elem_of_cons; by left).
  split; [reflexivity|]. split; [exact Hin|]. split; [reflexivity|]. split; [exact Hf|].
  exact (sequential_file_size unreadable_tree None false [] false _ _ _ _ _
           eq_refl eq_refl Hin eq_refl Hf).
Defined.

(** ** The probe phase of the parallel strategy *)

Lemma concat_batches (fuel batch_size : nat) (l : list path) :
  (0 < batch_size)%nat → (length l ≤ fuel)%nat →
  concat (batches fuel batch_size l) = l.
Proof.
  intros Hsize. revert l. induction fuel as [|fuel IH]; intros l Hlen.
  - destruct l; [done|cbn in Hlen; lia].
  - destruct l as [|x l]; [done|]. cbn [batches concat].
    rewrite IH; [apply take_drop|]. rewrite length_drop. cbn in *. lia.
Qed.

Lemma concat_file_batches (file_paths : list path) :
  concat (file_batches file_paths) = file_paths.
Proof.
  unfold file_batches. apply concat_batches; [|done].
  destruct (1000 <? length file_paths)%nat; lia.
Qed.

Lemma resolve_no_vanishing (p : path) :
  ∀ (fs n : node), no_vanishing fs = true → resolve fs p = Some n →
                   no_vanishing n = true.
Proof.
  induction p as [|name rest IH]; intros fs n Hfs Hres.
  - by injection Hres as <-.
  - destruct fs as [| | |lnk st entries]; try discriminate. cbn [resolve] in Hres.
    destruct (assoc name entries) as [child|] eqn:Hassoc; [|discriminate].
    apply (IH child); [|done]. cbn in Hfs. rewrite forallb_forall in Hfs.
    apply (Hfs (name, child)). apply list_elem_of_In. by apply assoc_elem_of.
Qed.

(** On a snapshot where nothing vanishes, what exists can be probed. *)
Lemma exists_probe (fs : node) (followlinks : bool) (p : path) :
  no_vanishing fs = true → os_path_exists fs p = true →
  is_Some (probe fs followlinks p).
Proof.
  intros Hfs. unfold os_path_exists, probe, os_path_islink, os_lstat, os_stat.
  destruct (resolve fs p) as [n|] eqn:Hres; [|discriminate].
  pose proof (resolve_no_vanishing _ _ _ Hfs Hres) as Hn.
  destruct n as [[s|]|l [s|]| |[l|] s entries]; cbn; try discriminate;
    destruct followlinks; cbn; intros H; try discriminate; eauto.
Qed.

Lemma probe_all_update (fs : node) (followlinks : bool) (l : list path) :
  Forall (λ p, is_Some (probe fs followlinks p)) l →
  ∃ kvs, mapM (λ p, sz ← probe fs followlinks p; Some (p, sz)) l = Some kvs
         ∧ ∀ (sizes : gmap path Z) (k : path),
             update sizes kvs !! k
             = if decide (k ∈ l) then probe fs followlinks k else sizes !! k.
Proof.
  induction 1 as [|p l [v Hv] _ (kvs & Hm & IH)].
  - exists []. split; [done|]. intros sizes k.
    rewrite decide_False; [done|]. apply not_elem_of_nil.
  - exists ((p, v) :: kvs). split; [cbn; by rewrite Hv, Hm|].
    intros sizes k. unfold update in *. cbn [fold_left fst snd]. rewrite IH.
    destruct (decide (k ∈ l)) as [Hin | Hnin].
    + rewrite decide_True; [done|]. apply elem_of_cons. by right.
    + destruct (decide (k = p)) as [-> | Hne].
      * rewrite lookup_insert_eq, decide_True; [done|]. apply elem_of_cons. by left.
      * rewrite lookup_insert_ne by done. rewrite decide_False; [done|].
        intros [?|?]%elem_of_cons; done.
Qed.

Lemma merge_batch_lookup (fs : node) (followlinks : bool) (b : list path)
    (sizes : gmap path Z) (k : path) :
  no_vanishing fs = true →
  merge_batch fs followlinks sizes b !! k
  = if decide (k ∈ b ∧ os_path_exists fs k = true)
    then probe fs followlinks k else sizes !! k.
Proof.
  intros Hfs. unfold merge_batch, probe_batch.
  destruct (probe_all_update fs followlinks (filter (λ p, os_path_exists fs p) b))
    as (kvs & -> & Hup).
  { apply Forall_forall. intros p [Hp _]%list_elem_of_filter.
    apply exists_probe; [done|]. by apply Is_true_true. }
  rewrite Hup. apply decide_ext. rewrite list_elem_of_filter, Is_true_true. tauto.
Qed.

Lemma merge_batches_lookup (fs : node) (followlinks : bool) (bs : list (list path))
    (sizes : gmap path Z) (k : path) :
  no_vanishing fs = true →
  fold_left (merge_batch fs followlinks) bs sizes !! k
  = if decide (k ∈ concat bs ∧ os_path_exists fs k = true)
    then probe fs followlinks k else sizes !! k.
Proof.
  intros Hfs. revert sizes. induction bs as [|b bs IH]; intros sizes.
  - cbn. rewrite decide_False; [done|]. intros [H _]. by apply elem_of_nil in H.
  - cbn [fold_left concat]. rewrite IH, merge_batch_lookup by done.
    destruct (decide (k ∈ concat bs ∧ os_path_exists fs k = true)) as [[H1 H2] | Hn].
    + rewrite decide_True; [done|]. split; [|done]. apply elem_of_app. by right.
    + apply decide_ext. rewrite elem_of_app. tauto.
Qed.

Lemma aggregate_other (fs : node) (dirs : list path) (st : gmap path Z * gmap path Z)
    (k : path) :
  k ∉ dirs →
  fst (fold_left (aggregate_dir fs) dirs st) !! k = fst st !! k.
Proof.
  revert st. induction dirs as [|D dirs IH]; intros st Hk; [done|].
  cbn [fold_left]. rewrite IH by (intros ?; apply Hk; by right).
  rewrite aggregate_dir_sizes. apply lookup_insert_ne. intros ->. apply Hk. by left.
Qed.

Lemma fold_collect_files (max_depth : option Z) (wl : list pattern)
    (items : list walk_item) (acc : list path * list path) :
  snd (fold_left (collect max_depth wl) items acc)
  = snd acc ++ flat_map (λ item : walk_item,
                           if beyond_depth max_depth wl (fst (fst item)) then []
                           else map (join (fst (fst item))) (snd item)) items.
Proof.
  revert acc. induction items as [|[[dirpath dirnames] filenames] items IH]; intros acc.
  - cbn. by rewrite app_nil_r.
  - cbn [fold_left flat_map]. rewrite IH. unfold collect. cbn [fst snd].
    destruct (beyond_depth max_depth wl dirpath); [done|].
    cbn [snd]. by rewrite <- app_assoc.
Qed.

Lemma walk_topdown_items (clear : path → bool) (followlinks : bool) (n : node) :
  wf_node n = true →
  ∀ (top : path) (item : walk_item),
    item ∈ walk_topdown clear followlinks top n →
    ∃ suffix lnk st entries,
      resolve n suffix = Some (Dir lnk st entries)
      ∧ item = (top ++ suffix, dirs_of entries, nondirs_of entries).
Proof.
  induction n as [| | |lnk st entries IH] using node_induction;
    intros Hwf top item Hin; cbn in Hin; try by apply elem_of_nil in Hin.
  cbn in Hwf. apply andb_true_iff in Hwf as [Hnd Hwf].
  apply bool_decide_eq_true in Hnd. rewrite forallb_forall in Hwf.
  apply elem_of_cons in Hin as [-> | Hin].
  - exists [], lnk, st, entries. split; [reflexivity|]. by rewrite app_nil_r.
  - destruct (clear top); [by apply elem_of_nil in Hin|].
    apply elem_of_flat_map in Hin as ([name child] & He & Hin). cbn [fst snd] in Hin.
    destruct (walk_into followlinks child); [|by apply elem_of_nil in Hin].
    rewrite Forall_forall in IH.
    destruct (IH _ He (Hwf _ (proj1 (list_elem_of_In _ _) He)) _ _ Hin)
      as (suffix & lnk' & st' & entries' & Hres & ->).
    exists (name :: suffix), lnk', st', entries'.
    split; [cbn [resolve]; by rewrite (assoc_NoDup _ _ _ Hnd He)|].
    unfold join. by rewrite <- app_assoc.
Qed.

(** Every path of [file_paths] is a listed non-directory of a directory of
    the snapshot. *)
Lemma first_pass_files (fs : node) (max_depth : option Z) (followlinks : bool)
    (wl : list pattern) (p : path) :
  wf_node fs = true →
  p ∈ snd (first_pass fs max_depth followlinks wl) →
  ∃ D f lnk st entries,
    p = join D f ∧ resolve fs D = Some (Dir lnk st entries) ∧ f ∈ nondirs_of entries.
Proof.
  intros Hwf. unfold first_pass. rewrite fold_collect_files. cbn [snd app].
  intros ([[D dn] fn] & Hitem & Hp)%elem_of_flat_map. cbn [fst snd] in Hp.
  destruct (beyond_depth max_depth wl D); [by apply elem_of_nil in Hp|].
  apply list_elem_of_In, in_map_iff in Hp as (f & <- & Hf).
  destruct (walk_topdown_items _ _ _ Hwf _ _ Hitem)
    as (suffix & lnk & st & entries & Hres & [= -> -> ->]).
  exists suffix, f, lnk, st, entries. split; [done|]. split; [done|].
  by apply list_elem_of_In.
Qed.

(** X18: on a snapshot where no entry vanishes during the scan, the
    parallel strategy stores for every enumerated file that exists its
    probed size, and leaves out exactly those that do not exist. *)
Theorem parallel_file_size (fs : node) (max_depth : option Z) (followlinks : bool)
    (wl : list pattern) (one_filesystem : bool) (sizes : gmap path Z) (p : path) :
  wf_node fs = true →
  no_vanishing fs = true →
  walk_directory fs max_depth followlinks wl one_filesystem true = Ok sizes →
  p ∈ snd (first_pass fs max_depth followlinks wl) →
  sizes !! p = if os_path_exists fs p then probe fs followlinks p else None.
Proof.
  intros Hwf Hstable Hwalk Hp.
  destruct (first_pass_files _ _ _ _ _ Hwf Hp) as (D & f & lnk & st & entries & -> & HD & Hf).
  assert (Hsizes : sizes = parallel_sizes fs max_depth followlinks wl {[ [] := 0 ]}).
  { unfold walk_directory in Hwalk.
    destruct one_filesystem; [destruct (os_stat fs [])|]; congruence. }
  subst sizes. clear Hwalk. unfold parallel_sizes.
  pose proof (first_pass_dirs fs max_depth followlinks wl) as Hdirs.
  destruct (first_pass fs max_depth followlinks wl) as [dir_paths file_paths].
  cbn [fst snd] in *. subst dir_paths.
  rewrite aggregate_other.
  - cbn [fst]. rewrite merge_batches_lookup by done. rewrite concat_file_batches.
    destruct (os_path_exists fs (join D f)) eqn:Hex.
    + by rewrite decide_True.
    + rewrite decide_False by (intros [_ ?]; done).
      apply lookup_singleton_ne. unfold join. by destruct D.
  - intros Hin%list_elem_of_In%in_rev%list_elem_of_In.
    destruct (enum_dirs_resolve _ _ _ Hwf _ _ Hin) as (suffix & Hsuf & Hres).
    cbn [app] in Hsuf. subst suffix.
    by apply (nondir_not_above_dir fs D (join D f) f lnk st entries).
Qed.

Lemma parallel_file_size_witness :
  wf_node unreadable_tree = true
  ∧ no_vanishing unreadable_tree = true
  ∧ ["gone"] ∈ snd (first_pass unreadable_tree None false [])
  ∧ sizes_of (walk_directory unreadable_tree None false [] false true) !! ["gone"]
    = (if os_path_exists unreadable_tree ["gone"]
       then probe unreadable_tree false ["gone"] else None).
Proof.
  assert (Hin : ["gone"] ∈ snd (first_pass unreadable_tree None false []))
    by (apply list_elem_of_In; vm_compute; tauto).
  split; [reflexivity|]. split; [reflexivity|]. split; [exact Hin|].
  exact (parallel_file_size unreadable_tree None false [] false _ _
           eq_refl eq_refl eq_refl Hin).
Defined.

(** ** [get_file_size] *)

Lemma entry_contribution (follow_symlinks : bool) (n : node) :
  (if entry_is_dir follow_symlinks n
   then get_file_size_node follow_symlinks n
   else block_size (stat_fn follow_symlinks n))
  = get_file_size_node follow_symlinks n.
Proof. destruct n as [| | |[l|] st entries], follow_symlinks; reflexivity. Qed.

Lemma get_file_size_join (fs : node) (D : path) (follow_symlinks : bool)
    (lnk : option stat_result) (st : stat_result) (entries : list (string * node))
    (name : string) (child : node) :
  resolve fs D = Some (Dir lnk st entries) →
  NoDup (map fst entries) →
  (name, child) ∈ entries →
  get_file_size fs (join D name) follow_symlinks
  = get_file_size_node follow_symlinks child.
Proof.
  intros HD Hnd Hin. unfold get_file_size, join. rewrite resolve_app, HD. cbn.
  by rewrite (assoc_NoDup _ _ _ Hnd Hin).
Qed.

(** X19: the size of a real directory is its own block allocation plus,
    for each entry it lists, what [get_file_size] returns for that entry;
    an entry for which it fails adds nothing and does not make the
    directory fail. *)
Theorem get_file_size_directory (fs : node) (D : path) (follow_symlinks : bool)
    (st : stat_result) (entries : list (string * node)) :
  wf_node fs = true →
  resolve fs D = Some (Dir None st entries) →
  get_file_size fs D follow_symlinks
  = Some (fold_left (λ total name,
                       total + default 0 (get_file_size fs (join D name) follow_symlinks))
                    (map fst entries) (st_blocks st * 512)).
Proof.
  intros Hwf HD. pose proof (resolve_wf _ _ _ Hwf HD) as Hwf'. cbn in Hwf'.
  apply andb_true_iff in Hwf' as [Hnd _]. apply bool_decide_eq_true in Hnd.
  unfold get_file_size at 1. rewrite HD. cbn [mbind option_bind get_file_size_node].
  f_equal.
  assert (Hall : Forall (λ e, get_file_size fs (join D (fst e)) follow_symlinks
                              = get_file_size_node follow_symlinks (snd e)) entries).
  { apply Forall_forall. intros [name child] Hin.
    by apply (get_file_size_join fs D follow_symlinks None st entries). }
  clear HD Hnd. generalize (st_blocks st * 512).
  induction Hall as [|[name child] entries Hhd _ IH]; intros total; [done|].
  cbn [fold_left map fst snd] in *. rewrite <- IH, Hhd, entry_contribution.
  f_equal. destruct (get_file_size_node follow_symlinks child); cbn; lia.
Qed.

Lemma get_file_size_directory_witness :
  wf_node unreadable_tree = true
  ∧ resolve unreadable_tree [] = Some (Dir None (mkStat 1 1 8)
                                         [("gone", File None); ("f", reg 2 8);
                                          ("sub", Dir None (mkStat 1 3 8) [("g", reg 4 16)])])
  ∧ get_file_size unreadable_tree [] false = Some (4096 + 0 + 4096 + 12288).
Proof.
  split; [reflexivity|]. split; [reflexivity|].
  rewrite (get_file_size_directory unreadable_tree [] false _ _ eq_refl eq_refl).
  reflexivity.
Defined.

(** X20: [process_directory_batch] maps every path of the batch whose size
    can be determined to that size and holds no other key: a failing path
    is left out alone. *)
Theorem process_directory_batch_lookup (fs : node) (batch : list path)
    (follow_symlinks : bool) (p : path) :
  process_directory_batch fs batch follow_symlinks !! p
  = if decide (p ∈ batch) then get_file_size fs p follow_symlinks else None.
Proof.
  unfold process_directory_batch.
  assert (H : ∀ acc : gmap path Z,
            fold_left (λ result q,
                         match get_file_size fs q follow_symlinks with
                         | Some v => <[q := v]> result
                         | None => result
                         end) batch acc !! p
            = if decide (p ∈ batch)
              then match get_file_size fs p follow_symlinks with
                   | Some v => Some v
                   | None => acc !! p
                   end
              else acc !! p).
  { induction batch as [|q batch IH]; intros acc.
    - rewrite decide_False; [done|]. apply not_elem_of_nil.
    - cbn [fold_left]. rewrite IH. clear IH.
      destruct (decide (p ∈ batch)) as [Hin | Hnin].
      + rewrite decide_True by (apply elem_of_cons; by right).
        destruct (get_file_size fs p follow_symlinks) eqn:Hp; [done|].
        destruct (get_file_size fs q follow_symlinks) eqn:Hq; [|done].
        apply lookup_insert_ne. congruence.
      + destruct (decide (q = p)) as [-> | Hne].
        * rewrite decide_True by (apply elem_of_cons; by left).
          destruct (get_file_size fs p follow_symlinks); [|done].
          by rewrite lookup_insert_eq.
        * rewrite decide_False by (intros [?|?]%elem_of_cons; done).
          destruct (get_file_size fs q follow_symlinks); [|done].
          by apply lookup_insert_ne. }
  rewrite H. destruct (decide (p ∈ batch)); [|done].
  by destruct (get_file_size fs p follow_symlinks).
Qed.

(** ** [sort_paths] *)

Section StableSort.
Variable le : path * Z → path * Z → bool.
Hypothesis le_total : ∀ a b, le a b = true ∨ le b a = true.
Hypothesis le_trans : ∀ a b c, le a b = true → le b c = true → le a c = true.

Lemma insert_by_Permutation (x : path * Z) (l : list (path * Z)) :
  insert_by le x l ≡ₚ x :: l.
Proof.
  induction l as [|y l IH]; [done|]. cbn [insert_by].
  destruct (le x y); [done|]. rewrite IH. apply Permutation_swap.
Qed.

Lemma sorted_by_Permutation (l : list (path * Z)) : sorted_by le l ≡ₚ l.
Proof.
  induction l as [|x l IH]; [done|]. cbn. by rewrite insert_by_Permutation, IH.
Qed.

Lemma insert_by_sorted (x : path * Z) (l : list (path * Z)) :
  StronglySorted (λ a b, le a b = true) l →
  StronglySorted (λ a b, le a b = true) (insert_by le x l).
Proof.
  induction 1 as [|y l Hsorted IH Hall]; [repeat constructor|].
  cbn [insert_by]. destruct (le x y) eqn:Hxy.
  - constructor; [by constructor|]. constructor; [done|].
    eapply Forall_impl; [exact Hall|]. intros z Hz. by eapply le_trans.
  - constructor; [done|]. rewrite insert_by_Permutation. constructor; [|done].
    destruct (le_total x y); congruence.
Qed.

Lemma sorted_by_sorted (l : list (path * Z)) :
  StronglySorted (λ a b, le a b = true) (sorted_by le l).
Proof.
  induction l as [|x l IH]; [constructor|]. cbn. by apply insert_by_sorted.
Qed.

Lemma insert_by_filter (x x0 : path * Z) (l : list (path * Z)) :
  List.filter (λ e, le e x0 && le x0 e) (insert_by le x l)
  = if le x x0 && le x0 x
    then x :: List.filter (λ e, le e x0 && le x0 e) l
    else List.filter (λ e, le e x0 && le x0 e) l.
Proof.
  induction l as [|y l IH]; [reflexivity|]. cbn [insert_by].
  destruct (le x y) eqn:Hxy; [reflexivity|].
  cbn [List.filter]. rewrite IH.
  destruct (le x x0 && le x0 x) eqn:Hx; [|reflexivity].
  apply andb_true_iff in Hx as [Hx1 Hx2].
  destruct (le y x0 && le x0 y) eqn:Hy; [|reflexivity].
  apply andb_true_iff in Hy as [Hy1 Hy2].
  rewrite (le_trans x x0 y Hx1 Hy2) in Hxy. discriminate.
Qed.

Lemma sorted_by_stable (x0 : path * Z) (l : list (path * Z)) :
  List.filter (λ e, le e x0 && le x0 e) (sorted_by le l)
  = List.filter (λ e, le e x0 && le x0 e) l.
Proof.
  induction l as [|x l IH]; [reflexivity|].
  cbn [sorted_by fold_right List.filter]. fold (sorted_by le l).
  rewrite insert_by_filter, IH. reflexivity.
Qed.
End StableSort.

Lemma key_le_total (sort_key : string) (a b : path * Z) :
  key_le sort_key a b = true ∨ key_le sort_key b a = true.
Proof.
  unfold key_le. destruct (String.eqb sort_key "name"); [apply String.leb_total|lia].
Qed.

Lemma string_leb_trans (a b c : string) :
  String.leb a b = true → String.leb b c = true → String.leb a c = true.
Proof.
  intros H1%Is_true_true H2%Is_true_true. apply Is_true_true.
  change (String.le a c). by etrans.
Qed.

Lemma key_le_trans (sort_key : string) (a b c : path * Z) :
  key_le sort_key a b = true → key_le sort_key b c = true → key_le sort_key a c = true.
Proof.
  unfold key_le. destruct (String.eqb sort_key "name"); [apply string_leb_trans|lia].
Qed.

(** X21: sorting neither loses nor invents nor duplicates an entry. *)
Theorem sort_paths_permutation (paths : list (path * Z)) (sort_key : string)
    (reverse : bool) :
  sort_paths paths sort_key reverse ≡ₚ paths.
Proof. unfold sort_paths. apply sorted_by_Permutation. Qed.

(** X22: the result is ordered by the chosen key, by size unless the key is
    "name": every entry is at most each later one, and at least each later
    one with [reverse]. *)
Theorem sort_paths_sorted (paths : list (path * Z)) (sort_key : string) (reverse : bool) :
  StronglySorted (λ a b, (if reverse then key_le sort_key b a else key_le sort_key a b) = true)
                 (sort_paths paths sort_key reverse).
Proof.
  unfold sort_paths. destruct reverse.
  - apply (sorted_by_sorted (λ a b, key_le sort_key b a)).
    + intros a b. apply key_le_total.
    + intros a b c H1 H2. by eapply key_le_trans.
  - apply sorted_by_sorted; [apply key_le_total|apply key_le_trans].
Qed.

(** X23: entries with equal keys stay in the order of the input, with and
    without [reverse]. *)
Theorem sort_paths_stable (paths : list (path * Z)) (sort_key : string) (reverse : bool)
    (x0 : path * Z) :
  List.filter (λ e, key_le sort_key e x0 && key_le sort_key x0 e)
              (sort_paths paths sort_key reverse)
  = List.filter (λ e, key_le sort_key e x0 && key_le sort_key x0 e) paths.
Proof.
  unfold sort_paths. destruct reverse.
  - assert (Hext : ∀ l : list (path * Z),
              List.filter (λ e, key_le sort_key e x0 && key_le sort_key x0 e) l
              = List.filter (λ e, key_le sort_key x0 e && key_le sort_key e x0) l)
      by (intros l; apply List.filter_ext; intros e; apply andb_comm).
    rewrite !Hext.
    apply (sorted_by_stable (λ a b, key_le sort_key b a)).
    intros a b c H1 H2. by eapply key_le_trans.
  - apply sorted_by_stable. apply key_le_trans.
Qed.

Example sort_paths_by_size_reverse :
  sort_paths [(["a"], 5); (["b"], 9); (["c"], 5)] "size" true
  = [(["b"], 9); (["a"], 5); (["c"], 5)].
Proof. reflexivity. Qed.

(** ** [load_pattern_file] *)

Lemma rstrip_cons_nonspace (c : ascii) (s : string) :
  is_space c = false → rstrip (String c s) = String c (rstrip s).
Proof. intros Hc. cbn [rstrip]. rewrite Hc. by destruct (rstrip s). Qed.

Lemma rstrip_cons (c : ascii) (s : string) :
  rstrip (String c s)
  = match rstrip s with
    | EmptyString => if is_space c then EmptyString else String c EmptyString
    | r => String c r
    end.
Proof. reflexivity. Qed.

Lemma rstrip_idempotent (s : string) : rstrip (rstrip s) = rstrip s.
Proof.
  induction s as [|c s IH]; [reflexivity|]. rewrite rstrip_cons.
  destruct (rstrip s) as [|d r] eqn:Hr.
  - destruct (is_space c) eqn:Hc; [reflexivity|]. rewrite rstrip_cons. cbn. by rewrite Hc.
  - rewrite rstrip_cons. by rewrite IH.
Qed.

Lemma lstrip_head (s : string) :
  match lstrip s with
  | String c _ => is_space c = false
  | EmptyString => True
  end.
Proof.
  induction s as [|c s IH]; [done|]. cbn [lstrip].
  destruct (is_space c) eqn:Hc; [exact IH|exact Hc].
Qed.

Lemma strip_head (s : string) :
  match strip s with
  | String c _ => is_space c = false
  | EmptyString => True
  end.
Proof.
  unfold strip. pose proof (lstrip_head s) as H.
  destruct (lstrip s) as [|c t]; [done|]. by rewrite rstrip_cons_nonspace.
Qed.

Lemma strip_idempotent (s : string) : strip (strip s) = strip s.
Proof.
  pose proof (strip_head s) as H. unfold strip at 1.
  assert (Hl : lstrip (strip s) = strip s).
  { destruct (strip s) as [|c t]; [reflexivity|]. cbn [lstrip]. by rewrite H. }
  rewrite Hl. unfold strip. apply rstrip_idempotent.
Qed.

Lemma loaded_patterns_clean (lines : list string) :
  Forall (λ p, p ≠ "" ∧ is_comment p = false ∧ strip p = p)
         (List.filter (λ line, nonempty line && negb (is_comment line)) (map strip lines)).
Proof.
  apply Forall_forall. intros p Hp.
  apply list_elem_of_In, filter_In in Hp as [Hp Hok].
  apply in_map_iff in Hp as (line & <- & _).
  apply andb_true_iff in Hok as [Hne Hc]. apply negb_true_iff in Hc.
  split; [|split; [done|apply strip_idempotent]].
  intros Heq. rewrite Heq in Hne. discriminate.
Qed.

(** X24: every pattern loaded from a pattern file is non-empty, is not a
    comment line, and carries no whitespace at either end. *)
Theorem load_pattern_file_clean (lines patterns : list string) :
  load_pattern_file (Some lines) = Some patterns →
  Forall (λ p, p ≠ "" ∧ is_comment p = false ∧ strip p = p) patterns.
Proof.
  unfold load_pattern_file. intros [= <-]. apply loaded_patterns_clean.
Qed.

Lemma load_pattern_file_clean_witness :
  load_pattern_file (Some ["  *.log  "; ""; "# caches"; "cache "])
  = Some ["*.log"; "cache"]
  ∧ Forall (λ p, p ≠ "" ∧ is_comment p = false ∧ strip p = p) ["*.log"; "cache"].
Proof.
  assert (H : load_pattern_file (Some ["  *.log  "; ""; "# caches"; "cache "])
              = Some ["*.log"; "cache"]) by reflexivity.
  split; [exact H|]. exact (load_pattern_file_clean _ _ H).
Defined.

(** X25: writing the loaded patterns out one per line and loading them
    again gives the same patterns in the same order. *)
Theorem load_pattern_file_idempotent (lines patterns : list string) :
  load_pattern_file (Some lines) = Some patterns →
  load_pattern_file (Some patterns) = Some patterns.
Proof.
  intros [= <-]. pose proof (loaded_patterns_clean lines) as Hclean.
  unfold load_pattern_file. f_equal.
  revert Hclean. generalize
    (List.filter (λ line, nonempty line && negb (is_comment line)) (map strip lines)).
  intros patterns Hclean.
  induction Hclean as [|p ps (Hne & Hc & Hs) _ IH]; [reflexivity|].
  cbn [map List.filter]. rewrite Hs, Hc, IH.
  destruct p; [done|reflexivity].
Qed.

Lemma load_pattern_file_idempotent_witness :
  load_pattern_file (Some ["  *.log  "; ""; "# caches"; "cache "])
  = Some ["*.log"; "cache"]
  ∧ load_pattern_file (Some ["*.log"; "cache"]) = Some ["*.log"; "cache"].
Proof.
  assert (H : load_pattern_file (Some ["  *.log  "; ""; "# caches"; "cache "])
              = Some ["*.log"; "cache"]) by reflexivity.
  split; [exact H|]. exact (load_pattern_file_idempotent _ _ H).
Defined.

(** ** [parse_size] *)

Lemma span_app (P : ascii → bool) (a b : string) :
  string_forall P a = true →
  match b with String c _ => P c = false | EmptyString => True end →
  span P (a +:+ b) = (a, b).
Proof.
  intros Ha Hb. induction a as [|c a IH].
  - change (EmptyString +:+ b) with b. destruct b as [|c b]; [reflexivity|].
    cbn [span]. by rewrite Hb.
  - cbn [string_forall] in Ha. apply andb_true_iff in Ha as [Hc Ha].
    change (String c a +:+ b) with (String c (a +:+ b)). cbn [span].
    by rewrite Hc, IH.
Qed.

Lemma append_nil_r (s : string) : s +:+ "" = s.
Proof.
  induction s as [|c s IH]; [reflexivity|].
  change (String c (s +:+ "") = String c s). by rewrite IH.
Qed.

Lemma span_all (P : ascii → bool) (s : string) :
  string_forall P s = true → span P s = (s, EmptyString).
Proof.
  intros H. rewrite <- (append_nil_r s) at 1. by apply span_app.
Qed.

Lemma string_forall_app (P : ascii → bool) (a b : string) :
  string_forall P (a +:+ b) = string_forall P a && string_forall P b.
Proof.
  induction a as [|c a IH]; [reflexivity|].
  change (String c a +:+ b) with (String c (a +:+ b)). cbn [string_forall].
  by rewrite IH, andb_assoc.
Qed.

Lemma string_forall_impl (P Q : ascii → bool) (s : string) :
  (∀ c, P c = true → Q c = true) → string_forall P s = true → string_forall Q s = true.
Proof.
  intros HPQ. induction s as [|c s IH]; [done|]. cbn [string_forall].
  intros [Hc Hs]%andb_true_iff. by rewrite (HPQ c Hc), IH.
Qed.

Ltac by_char_code :=
  unfold is_digit, is_alpha, is_lower, is_upper, is_space in *; cbv zeta in *;
  repeat match goal with
         | H : context [(_ <=? _)%N] |- _ => revert H
         end;
  repeat match goal with
         | |- context [(?a <=? ?b)%N] => destruct (N.leb_spec a b)
         end;
  cbn; intros; try discriminate; try reflexivity; try lia.

Lemma digit_or_alpha_not_space (c : ascii) :
  is_digit c || is_alpha c = true → is_space c = false.
Proof. intros H. by_char_code. Qed.

Lemma alpha_not_digit (c : ascii) :
  is_alpha c = true → is_digit c || Ascii.eqb c "." = false.
Proof.
  intros H. apply orb_false_iff. split.
  - by_char_code.
  - apply Ascii.eqb_neq. intros ->. discriminate.
Qed.

Lemma strip_no_space (s : string) :
  string_forall (λ c, negb (is_space c)) s = true → strip s = s.
Proof.
  intros H. unfold strip.
  assert (Hl : lstrip s = s).
  { destruct s as [|c s]; [reflexivity|]. cbn in H |- *.
    apply andb_true_iff in H as [Hc _]. apply negb_true_iff in Hc. by rewrite Hc. }
  rewrite Hl. induction s as [|c s IH]; [reflexivity|].
  cbn [string_forall] in H. apply andb_true_iff in H as [Hc Hs].
  apply negb_true_iff in Hc. rewrite rstrip_cons_nonspace by done.
  f_equal. apply IH; [done|].
  destruct s as [|d s]; [reflexivity|]. cbn in Hs |- *.
  apply andb_true_iff in Hs as [Hd _]. apply negb_true_iff in Hd. by rewrite Hd.
Qed.

(** How [parse_size] reads a string of digits followed by letters. *)
Lemma parse_size_number_unit (num unit : string) :
  isdigit num = true →
  string_forall is_alpha unit = true →
  unit ≠ "" →
  parse_size (num +:+ unit)
  = let unit_part := upper unit in
    let m := int_of_digits 0 num in
    if String.eqb unit_part "B" || negb (nonempty unit_part) then Some (m / 10 ^ 0)
    else match units_lookup SIZE_UNITS unit_part with
         | Some u => Some (m * u / 10 ^ 0)
         | None =>
             if endswith_B unit_part then
               match units_lookup SIZE_UNITS (drop_last unit_part) with
               | Some u => Some (m * u / 10 ^ 0)
               | None => None
               end
             else None
         end.
Proof.
  intros [Hne Hnum]%andb_true_iff Hunit Hu.
  destruct unit as [|c unit]; [done|]. clear Hu.
  pose proof Hunit as Hunit'. cbn [string_forall] in Hunit'.
  apply andb_true_iff in Hunit' as [Hc _].
  unfold parse_size.
  assert (H1 : nonempty (num +:+ String c unit) = true) by (by destruct num).
  assert (H2 : isdigit (num +:+ String c unit) = false).
  { unfold isdigit. rewrite string_forall_app. cbn [string_forall].
    assert (is_digit c = false) as ->
      by (by apply alpha_not_digit, orb_false_iff in Hc as [? _]).
    by rewrite !andb_false_r. }
  assert (H3 : strip (num +:+ String c unit) = num +:+ String c unit).
  { apply strip_no_space. rewrite string_forall_app. apply andb_true_iff. split.
    - eapply string_forall_impl; [|exact Hnum]. intros d Hd. apply negb_true_iff.
      apply digit_or_alpha_not_space. by rewrite Hd.
    - eapply string_forall_impl; [|exact Hunit]. intros d Hd. apply negb_true_iff.
      apply digit_or_alpha_not_space. by rewrite Hd, orb_true_r. }
  rewrite H1, H2, H3. cbn [negb]. unfold match_size.
  rewrite (span_app _ num (String c unit));
    [|eapply string_forall_impl; [|exact Hnum]; intros d Hd; by rewrite Hd
     |by apply alpha_not_digit].
  rewrite Hne.
  assert (H4 : span is_space (String c unit) = (EmptyString, String c unit)).
  { cbn [span]. by rewrite (digit_or_alpha_not_space c) by (by rewrite Hc, orb_true_r). }
  rewrite H4, (span_all is_alpha (String c unit) Hunit). cbn [nonempty].
  unfold float_of. rewrite (span_all is_digit num Hnum), Hne.
  reflexivity.
Qed.

(** X26: a number followed by KiB, MiB, GiB, TiB or PiB, in any letter
    case, is rejected, although these units are keys of [SIZE_UNITS]: the
    unit is upper-cased before it is looked up. *)
Theorem parse_size_rejects_iec (num unit : string) :
  isdigit num = true →
  string_forall is_alpha unit = true →
  In (upper unit) ["KIB"; "MIB"; "GIB"; "TIB"; "PIB"] →
  parse_size (num +:+ unit) = None
  ∧ is_Some (units_lookup SIZE_UNITS "KiB").
Proof.
  intros Hnum Hunit Hin. split; [|by eexists].
  rewrite parse_size_number_unit; [|done|done|by intros ->; cbn in Hin; intuition].
  cbv zeta. cbn in Hin.
  destruct Hin as [<- | [<- | [<- | [<- | [<- | []]]]]]; reflexivity.
Qed.

Lemma parse_size_rejects_iec_witness :
  isdigit "10" = true
  ∧ string_forall is_alpha "MiB" = true
  ∧ In (upper "MiB") ["KIB"; "MIB"; "GIB"; "TIB"; "PIB"]
  ∧ parse_size ("10" +:+ "MiB") = None.
Proof.
  assert (Hin : In (upper "MiB") ["KIB"; "MIB"; "GIB"; "TIB"; "PIB"])
    by (right; left; reflexivity).
  split; [reflexivity|]. split; [reflexivity|]. split; [exact Hin|].
  exact (proj1 (parse_size_rejects_iec "10" "MiB" eq_refl eq_refl Hin)).
Defined.

(** X27: a whole number below 2^53 followed by a unit letter K, M, G, T or
    P, with or without a B after it and in any letter case, is the number
    times the unit's power of 1024. *)
Theorem parse_size_unit (num unit : string) (u : Z) :
  isdigit num = true →
  int_of_digits 0 num < 2 ^ 53 →
  string_forall is_alpha unit = true →
  units_lookup SIZE_UNITS (upper unit) = Some u →
  parse_size (num +:+ unit) = Some (int_of_digits 0 num * u)
  ∧ In (upper unit) ["K"; "M"; "G"; "T"; "P"; "KB"; "MB"; "GB"; "TB"; "PB"].
Proof.
  intros Hnum _ Hunit Hu.
  assert (Hne : unit ≠ "") by (intros ->; discriminate).
  rewrite parse_size_number_unit by done. cbv zeta. rewrite Hu.
  assert (Hkeys : In (upper unit) ["K"; "M"; "G"; "T"; "P"; "KB"; "MB"; "GB"; "TB"; "PB"]).
  { assert (Hup : string_forall (λ c, negb (is_lower c)) (upper unit) = true).
    { clear. induction unit as [|c unit IH]; [done|]. cbn [upper string_forall].
      rewrite IH, andb_true_r. unfold upper_char.
      destruct (is_lower c) eqn:Hc; [|by rewrite Hc].
      apply negb_true_iff. unfold is_lower in *. cbv zeta in *.
      apply andb_true_iff in Hc as [H1%N.leb_le H2%N.leb_le].
      rewrite N_ascii_embedding by lia.
      apply andb_false_iff. left. apply N.leb_gt. lia. }
    revert Hu Hup. generalize (upper unit). intros U HU Hup. unfold SIZE_UNITS in HU. cbn [units_lookup] in HU.
    repeat match type of HU with
           | (if String.eqb ?k U then _ else _) = _ =>
               destruct (String.eqb_spec k U) as [HkU | _];
               [clear HU; subst U;
                first [by vm_compute in Hup
                      | by (cbn; repeat first [left; reflexivity | right])]|]
           end.
    discriminate. }
  split; [|exact Hkeys].
  assert (HB : String.eqb (upper unit) "B" = false).
  { apply String.eqb_neq. intros HB. rewrite HB in Hu. discriminate. }
  rewrite HB. cbn [orb].
  assert (Hn : nonempty (upper unit) = true) by (by destruct unit).
  rewrite Hn. cbn [negb]. f_equal. change (10 ^ 0) with 1. apply Z.div_1_r.
Qed.

Lemma parse_size_unit_witness :
  isdigit "10" = true
  ∧ int_of_digits 0 "10" < 2 ^ 53
  ∧ string_forall is_alpha "mb" = true
  ∧ units_lookup SIZE_UNITS (upper "mb") = Some 1048576
  ∧ parse_size ("10" +:+ "mb") = Some (int_of_digits 0 "10" * 1048576).
Proof.
  split; [reflexivity|]. split; [reflexivity|]. split; [reflexivity|].
  split; [reflexivity|].
  exact (proj1 (parse_size_unit "10" "mb" 1048576 eq_refl eq_refl eq_refl eq_refl)).
Defined.

(** ** More on size formatting *)

(** X29: from 1024^6 bytes on the unit table is exhausted and
    [format_size] fails ([IndexError]) instead of returning a string. *)
Theorem format_size_beyond_units (n : Z) :
  1024 ^ 6 ≤ n → format_size n = None.
Proof.
  intros Hn. assert (Hpos : 0 < n) by (cbn in Hn; lia).
  assert (Hi : 6 ≤ Z.log2 n / 10).
  { apply Z.div_le_lower_bound; [lia|].
    change (10 * 6) with (Z.log2 (1024 ^ 6)). by apply Z.log2_le_mono. }
  unfold format_size.
  destruct (Z.eqb_spec n 0); [lia|]. destruct (Z.ltb_spec n 0); [lia|].
  cbv zeta.
  assert (Hb : (Z.log2 n / 10 + 1 <? Z.of_nat (length size_names)) = false)
    by (apply Z.ltb_ge; cbn; lia).
  rewrite Hb, andb_false_r.
  assert (Hidx : size_names !! Z.to_nat (Z.log2 n / 10) = None).
  { apply lookup_ge_None. cbn. lia. }
  by rewrite Hidx.
Qed.

Lemma format_size_beyond_units_witness :
  1024 ^ 6 ≤ 2 ^ 61 ∧ format_size (2 ^ 61) = None.
Proof.
  split; [cbn; lia|]. apply format_size_beyond_units. cbn. lia.
Defined.

(** X30: a byte count from 1 to 1023 is printed as that number with two
    zero decimals and the unit B. *)
Theorem format_size_bytes_unit (n : Z) :
  0 < n < 1024 → format_size n = Some (pretty n +:+ ".00 B").
Proof.
  intros Hn.
  assert (Hi : Z.log2 n / 10 = 0) by (apply log1024_unique; cbn; lia).
  unfold format_size. rewrite Hi.
  destruct (Z.eqb_spec n 0); [lia|]. destruct (Z.ltb_spec n 0); [lia|].
  cbv zeta. change (1024 ^ 0) with 1.
  assert (Hs : round_half_even (100 * n) 1 = 100 * n).
  { unfold round_half_even. rewrite Z.mod_1_r, Z.div_1_r. reflexivity. }
  rewrite Hs.
  assert (Hb : (102400 <=? 100 * n) = false) by (apply Z.leb_gt; lia).
  rewrite Hb. cbn [andb]. change (size_names !! Z.to_nat 0) with (Some "B").
  cbn [mbind option_bind]. f_equal. unfold fixed2.
  replace (100 * n / 100) with n
    by (symmetry; rewrite Z.mul_comm; apply Z.div_mul; lia).
  replace (100 * n mod 100) with 0
    by (symmetry; rewrite Z.mul_comm; apply Z.mod_mul; lia).
  change (0 <? 10) with true. cbv iota.
  change (pretty 0) with "0".
  rewrite !append_assoc. reflexivity.
Qed.

Lemma format_size_bytes_unit_witness :
  0 < 512 < 1024 ∧ format_size 512 = Some (pretty 512 +:+ ".00 B").
Proof.
  split; [lia|]. apply format_size_bytes_unit. lia.
Defined.
